(** * Mars Orbiter: the orbital-mechanics and game-state core

    A shallow embedding of [Mars_Orbiter_Game.py].  The sprite classes
    [Satellite] and [Planet] become records with one function per method,
    the body of the [while running:] loop of [main] becomes the function
    [tick], and the loop itself becomes [main_loop] over the sequence of
    per-frame inputs.

    Numbers.  Python [int]s that only meet other [int]s (the fuel gauge, the
    two masses, the tick counter) are [Z].  Every quantity that Python holds
    in a [float] (positions, velocities, heading, distance, eccentricity) is
    a real number of [R]: arithmetic is exact, so rounding, overflow,
    signed zeros and NaN are outside the model.  Division keeps Python's
    behaviour at a zero divisor: it raises [ZeroDivisionError].

    Presentation.  Surfaces, fonts, sounds and blits are not modelled; what
    a frame shows is recorded as the list of messages passed to
    [instruct_label] and the raw values passed to the telemetry
    [box_label]s. *)

From Stdlib Require Import Reals ZArith List Bool Permutation Lra Lia.
Import ListNotations.

Open Scope R_scope.

(** ** Python results: a value or a raised exception *)

Inductive exn : Type :=
| ZeroDivisionError
| ValueError.

Inductive result (A : Type) : Type :=
| Ok (a : A)
| Raise (e : exn).

Arguments Ok {A} a.
Arguments Raise {A} e.

Definition bind {A B : Type} (m : result A) (k : A -> result B) : result B :=
  match m with
  | Ok a => k a
  | Raise e => Raise e
  end.

Notation "x <- m ;; k" := (bind m (fun x => k))
  (at level 61, m at next level, right associativity).

(** ** Comparisons and arithmetic of Python floats, read over [R] *)

Definition Rleb (a b : R) : bool := if Rle_dec a b then true else false.
Definition Rltb (a b : R) : bool := if Rlt_dec a b then true else false.
Definition Reqb (a b : R) : bool := if Req_dec_T a b then true else false.

(** [a / b]: raises on a zero divisor. *)
Definition truediv (a b : R) : result R :=
  if Reqb b 0 then Raise ZeroDivisionError else Ok (a / b).

(** [math.hypot]. *)
Definition hypot (a b : R) : R := sqrt (a * a + b * b).

(** [math.atan2 y x]: the angle of the point [(x, y)], in (-PI, PI]. *)
Definition atan2 (y x : R) : R :=
  if Rltb 0 x then atan (y / x)
  else if Rltb x 0 then
         if Rleb 0 y then atan (y / x) + PI else atan (y / x) - PI
  else if Rltb 0 y then PI / 2
  else if Rltb y 0 then - (PI / 2)
  else 0.

(** [math.degrees]. *)
Definition degrees (r : R) : R := r * 180 / PI.

(** [max] and [min] of a Python list: [ValueError] on the empty list. *)
Definition py_max (l : list R) : result R :=
  match l with
  | [] => Raise ValueError
  | a :: l' => Ok (fold_left Rmax l' a)
  end.

Definition py_min (l : list R) : result R :=
  match l with
  | [] => Raise ValueError
  | a :: l' => Ok (fold_left Rmin l' a)
  end.

(** ** Keyboard and events *)

(** [pg.key.get_pressed()], restricted to the four arrow keys. *)
Record Keys : Type := mkKeys {
  K_RIGHT : bool;
  K_LEFT : bool;
  K_UP : bool;
  K_DOWN : bool
}.

Definition no_keys : Keys := mkKeys false false false false.

Inductive Key : Type := K_ESCAPE | K_SPACE | K_m | K_arrow | K_other.

Inductive Event : Type :=
| QUIT
| KEYDOWN (key : Key)
| KEYUP (key : Key)
| OTHER.

(** ** class Planet *)

Inductive PlanetImage : Type := image_mars | image_water.

Module Planet.

Record t : Type := mk {
  image_copy : PlanetImage;
  mass : Z;
  x : R;
  y : R;
  angle : R;
  rotate_by : R
}.

(** [Planet.__init__] *)
Definition init : t :=
  {| image_copy := image_mars;
     mass := 2000;
     x := 400;
     y := 320;
     angle := degrees 0;
     rotate_by := degrees (1 / 100) |}.

Definition set_image_copy (i : PlanetImage) (p : t) : t :=
  mk i (mass p) (x p) (y p) (angle p) (rotate_by p).

(** [Planet.rotate]: the image transform is presentation; the state
    change is the angle. *)
Definition rotate (p : t) : t :=
  mk (image_copy p) (mass p) (x p) (y p) (angle p + rotate_by p)
     (rotate_by p).

(** [Planet.update] *)
Definition update (p : t) : t := rotate p.

End Planet.

(** [mapping_on] and [mapping_off]: which master image is scaled into
    [image_copy]. *)
Definition mapping_on (planet : Planet.t) : Planet.t :=
  Planet.set_image_copy image_water planet.

Definition mapping_off (planet : Planet.t) : Planet.t :=
  Planet.set_image_copy image_mars planet.

(** ** class Satellite *)

(** The sprite's current image: the default one, the default one rotated by
    a heading, or the burning satellite. *)
Inductive SatImage : Type :=
| image_sat
| image_rotated (heading : R)
| image_crash.

Module Satellite.

Record t : Type := mk {
  image : SatImage;
  x : R;
  y : R;
  dx : R;
  dy : R;
  heading : R;
  fuel : Z;
  mass : Z;
  distance : R
}.

(** [Satellite.__init__]; [x0], [y0] and [dx0] are the three random
    draws: [randrange(315, 425)], [randrange(70, 180)] and
    [choice([-3, 3])]. *)
Definition init (x0 y0 dx0 : Z) : t :=
  {| image := image_sat;
     x := IZR x0;
     y := IZR y0;
     dx := IZR dx0;
     dy := 0;
     heading := 0;
     fuel := 100;
     mass := 1;
     distance := 0 |}.

Definition valid_draw (x0 y0 dx0 : Z) : Prop :=
  (315 <= x0 < 425)%Z /\ (70 <= y0 < 180)%Z /\ (dx0 = -3 \/ dx0 = 3)%Z.

(** [Satellite.thruster] *)
Definition thruster (ddx ddy : R) (s : t) : t :=
  mk (image s) (x s) (y s) (dx s + ddx) (dy s + ddy) (heading s)
     (fuel s - 2) (mass s) (distance s).

(** [Satellite.check_keys] *)
Definition check_keys (keys : Keys) (s : t) : t :=
  if K_RIGHT keys then thruster (5 / 100) 0 s
  else if K_LEFT keys then thruster (- (5 / 100)) 0 s
  else if K_UP keys then thruster 0 (- (5 / 100)) s
  else if K_DOWN keys then thruster 0 (5 / 100) s
  else s.

(** [Satellite.locate] *)
Definition locate (planet : Planet.t) (s : t) : t :=
  let px := Planet.x planet in
  let py := Planet.y planet in
  let dist_x := x s - px in
  let dist_y := y s - py in
  let planet_dir_radians := atan2 dist_x dist_y in
  let heading0 := planet_dir_radians * 180 / PI in
  let heading1 := heading0 - 90 in
  mk (image s) (x s) (y s) (dx s) (dy s) heading1 (fuel s) (mass s)
     (hypot dist_x dist_y).

(** [Satellite.rotate] *)
Definition rotate (s : t) : t :=
  mk (image_rotated (heading s)) (x s) (y s) (dx s) (dy s) (heading s)
     (fuel s) (mass s) (distance s).

(** [Satellite.path]: the trail segment is presentation; the state change
    is the position. *)
Definition path (s : t) : t :=
  mk (image s) (x s + dx s) (y s + dy s) (dx s) (dy s) (heading s)
     (fuel s) (mass s) (distance s).

Definition set_image (i : SatImage) (s : t) : t :=
  mk i (x s) (y s) (dx s) (dy s) (heading s) (fuel s) (mass s)
     (distance s).

(** [Satellite.update] *)
Definition update (keys : Keys) (s : t) : t :=
  let s1 := check_keys keys s in
  let s2 := rotate s1 in
  let s3 := path s2 in
  if Reqb (dx s3) 0 && Reqb (dy s3) 0 then set_image image_crash s3
  else s3.

End Satellite.

(** ** Planet.gravity

    The method reads the planet ([self]) and writes the satellite it is
    given; it is placed after both classes and returns both objects, so that
    what it leaves alone can be stated.  [math.pow(distance, 2)] is read as
    the square of a real number: the [OverflowError] it raises when the
    square is beyond the largest float, and its underflow to 0 at tiny
    distances, belong to float arithmetic and have no counterpart here. *)
Definition gravity (self : Planet.t) (satellite : Satellite.t)
  : result (Planet.t * Satellite.t) :=
  let G := 1 in
  let dist_x := Planet.x self - Satellite.x satellite in
  let dist_y := Planet.y self - Satellite.y satellite in
  let distance := hypot dist_x dist_y in
  dist_x' <- truediv dist_x distance ;;
  dist_y' <- truediv dist_y distance ;;
  force <- truediv (G * IZR (Satellite.mass satellite * Planet.mass self))
                   (distance ^ 2) ;;
  Ok (self,
      Satellite.mk (Satellite.image satellite)
        (Satellite.x satellite) (Satellite.y satellite)
        (Satellite.dx satellite + dist_x' * force)
        (Satellite.dy satellite + dist_y' * force)
        (Satellite.heading satellite) (Satellite.fuel satellite)
        (Satellite.mass satellite) (Satellite.distance satellite)).

(** ** calc_eccentricity *)
Definition calc_eccentricity (dist_list : list R) : result R :=
  apoapsis <- py_max dist_list ;;
  periapsis <- py_min dist_list ;;
  truediv (apoapsis - periapsis) (apoapsis + periapsis).

(** ** main: the state of the game loop *)

(** Messages drawn with [instruct_label] inside the loop, by their text. *)
Inductive Message : Type :=
| Fuel_depleted
| Atmospheric_entry
| Map_instruct
| Intro_text.

(** What one pass of the loop puts on the screen: the messages, in drawing
    order, and the five telemetry values (before formatting). *)
Record Frame : Type := mkFrame {
  messages : list Message;
  readout_dx : R;
  readout_dy : R;
  readout_distance : R;
  readout_fuel : Z;
  readout_eccentricity : R
}.

(** What one pass of the loop reads from pygame: the event queue, the keys
    held down, and the milliseconds since start. *)
Record Input : Type := mkInput {
  events : list Event;
  keys : Keys;
  get_ticks : Z
}.

Record Game : Type := mkGame {
  planet : Planet.t;
  sat : Satellite.t;
  dist_list : list R;
  eccentricity : R;
  tick_count : Z;
  mapping_enabled : bool;
  running : bool
}.

Definition eccentricty_calc_interval : Z := 5.
Definition fps : Z := 30.

(** The locals of [main] before the loop. *)
Definition main_init (x0 y0 dx0 : Z) : Game :=
  {| planet := Planet.init;
     sat := Satellite.init x0 y0 dx0;
     dist_list := [];
     eccentricity := 1;
     tick_count := 0;
     mapping_enabled := false;
     running := true |}.

(** One event of [for event in pg.event.get()]: the [running] flag and the
    planet are what it can change; leaving full screen and clearing the
    trail are presentation. *)
Definition handle_event (mapping : bool) (st : bool * Planet.t) (event : Event)
  : bool * Planet.t :=
  let '(run, p) := st in
  match event with
  | QUIT => (false, p)
  | KEYDOWN K_ESCAPE => (run, p)
  | KEYDOWN K_SPACE => (run, p)
  | KEYUP _ => (run, mapping_off p)
  | _ =>
      if mapping then
        match event with
        | KEYDOWN K_m => (run, mapping_on p)
        | _ => (run, p)
        end
      else (run, p)
  end.

(** The two assignments of the fuel branch: [sat.fuel = 0; sat.dx = 2]. *)
Definition fuel_depleted (s : Satellite.t) : Satellite.t :=
  Satellite.mk (Satellite.image s) (Satellite.x s) (Satellite.y s)
    2 (Satellite.dy s) (Satellite.heading s) 0 (Satellite.mass s)
    (Satellite.distance s).

(** The two assignments of the altitude branch: [sat.dx = 0; sat.dy = 0]. *)
Definition atmospheric_entry (s : Satellite.t) : Satellite.t :=
  Satellite.mk (Satellite.image s) (Satellite.x s) (Satellite.y s)
    0 0 (Satellite.heading s) (Satellite.fuel s) (Satellite.mass s)
    (Satellite.distance s).

(** The block "fuel/ altitude fail conditions": the satellite after it and
    the message it draws. *)
Definition fail_conditions (s : Satellite.t) : Satellite.t * list Message :=
  if (Satellite.fuel s <=? 0)%Z then (fuel_depleted s, [Fuel_depleted])
  else if Rleb (Satellite.distance s) 68 then
    (atmospheric_entry s, [Atmospheric_entry])
  else (s, []).

(** The condition of the block "enable mapping functionality". *)
Definition mapping_test (ecc : R) (s : Satellite.t) : bool :=
  Rltb ecc (5 / 100)
  && (Rleb 69 (Satellite.distance s) && Rleb (Satellite.distance s) 120).

(** The event loop of one pass: [for event in pg.event.get()]. *)
Definition poll_events (g : Game) (inp : Input) : bool * Planet.t :=
  fold_left (handle_event (mapping_enabled g)) (events inp)
            (running g, planet g).

(** The block "calculate orbital eccentricity": the estimate and the
    sample list after it. *)
Definition recalc_eccentricity (count : Z) (ecc : R) (samples : list R)
  : result (R * list R) :=
  if (count mod (eccentricty_calc_interval * fps) =? 0)%Z
  then e <- calc_eccentricity samples ;; Ok (e, [])
  else Ok (ecc, samples).

(** The body of [while running:]. *)
Definition tick (g : Game) (inp : Input) : result (Game * Frame) :=
  let tick_count1 := (tick_count g + 1)%Z in
  let dist_list1 := dist_list g ++ [Satellite.distance (sat g)] in
  (* get keyboard input *)
  let '(running1, planet1) := poll_events g inp in
  (* get heading and distance to planet and apply gravity *)
  let sat1 := Satellite.locate planet1 (sat g) in
  ps <- gravity planet1 sat1 ;;
  let '(planet2, sat2) := ps in
  (* calculate orbital eccentricity *)
  ed <- recalc_eccentricity tick_count1 (eccentricity g) dist_list1 ;;
  let '(eccentricity1, dist_list2) := ed in
  (* fuel/ altitude fail conditions *)
  let '(sat3, msg_fail) := fail_conditions sat2 in
  (* enable mapping functionality *)
  let mapping1 := mapping_test eccentricity1 sat3 in
  let msg_map := if mapping1 then [Map_instruct] else [] in
  let planet3 := Planet.update planet2 in
  let sat4 := Satellite.update (keys inp) sat3 in
  (* display intro text for 15 seconds *)
  let msg_intro := if (get_ticks inp <=? 15000)%Z then [Intro_text] else [] in
  Ok (mkGame planet3 sat4 dist_list2 eccentricity1 tick_count1 mapping1
             running1,
      mkFrame (msg_fail ++ msg_map ++ msg_intro)
              (Satellite.dx sat4) (Satellite.dy sat4)
              (Satellite.distance sat4) (Satellite.fuel sat4)
              eccentricity1).

(** [while running:] over the inputs of successive frames; the frames drawn
    are returned oldest first.  The loop stops when [running] is false (or
    when the recorded inputs end). *)
Fixpoint main_loop (inputs : list Input) (g : Game)
  : result (Game * list Frame) :=
  match inputs with
  | [] => Ok (g, [])
  | inp :: rest =>
      if running g then
        gf <- tick g inp ;;
        r <- main_loop rest (fst gf) ;;
        Ok (fst r, snd gf :: snd r)
      else Ok (g, [])
  end.

(** ** Vocabulary of the properties

    Measurements, intermediate states of a pass and sample games that the
    statements below refer to. *)

(** The straight-line distance between the two sprites' positions, as
    [Planet.gravity] measures it. *)
Definition separation (p : Planet.t) (s : Satellite.t) : R :=
  hypot (Planet.x p - Satellite.x s) (Planet.y p - Satellite.y s).

(** The size of a change of velocity between two states of the satellite. *)
Definition delta_v (s s' : Satellite.t) : R :=
  hypot (Satellite.dx s' - Satellite.dx s) (Satellite.dy s' - Satellite.dy s).

(** What [Planet.gravity] leaves the satellite as when none of its
    divisions raises. *)
Definition pulled (p : Planet.t) (s : Satellite.t) : Satellite.t :=
  let d := separation p s in
  let force := 1 * IZR (Satellite.mass s * Planet.mass p) / d ^ 2 in
  Satellite.mk (Satellite.image s) (Satellite.x s) (Satellite.y s)
    (Satellite.dx s + (Planet.x p - Satellite.x s) / d * force)
    (Satellite.dy s + (Planet.y p - Satellite.y s) / d * force)
    (Satellite.heading s) (Satellite.fuel s) (Satellite.mass s)
    (Satellite.distance s).

(** A satellite sitting on the planet's centre. *)
Definition sat_at_centre : Satellite.t :=
  Satellite.mk image_sat 400 320 3 0 0 100 1 0.

(** The satellite once [locate] has run in this pass. *)
Definition located (g : Game) (inp : Input) : Satellite.t :=
  Satellite.locate (snd (poll_events g inp)) (sat g).

(** The rest of the pass once gravity has pulled and the eccentricity block
    has produced [ed]. *)
Definition tick_finish (g : Game) (inp : Input) (ed : R * list R)
  : Game * Frame :=
  let planet1 := snd (poll_events g inp) in
  let fc := fail_conditions (pulled planet1 (located g inp)) in
  let mapping1 := mapping_test (fst ed) (fst fc) in
  let sat4 := Satellite.update (keys inp) (fst fc) in
  (mkGame (Planet.update planet1) sat4 (snd ed) (fst ed)
          (tick_count g + 1)%Z mapping1 (fst (poll_events g inp)),
   mkFrame (snd fc ++ (if mapping1 then [Map_instruct] else [])
                   ++ (if (get_ticks inp <=? 15000)%Z then [Intro_text]
                       else []))
           (Satellite.dx sat4) (Satellite.dy sat4)
           (Satellite.distance sat4) (Satellite.fuel sat4) (fst ed)).

(** A game about to begin a pass with an empty tank, 50 units above the
    planet's centre; and an idle input. *)
Definition low_and_dry : Game :=
  mkGame Planet.init (Satellite.mk image_sat 400 270 3 0 0 0 1 0)
         [] 1 0 false true.

Definition idle : Input := mkInput [] no_keys 0.

(** A satellite on a near-circular orbit 100 from the planet's centre. *)
Definition cruising : Game :=
  mkGame Planet.init (Satellite.mk image_sat 400 220 3 0 0 100 1 100)
         [] (4 / 100) 0 false true.

(** The greatest and the least sample of a list. *)
Definition is_max (M : R) (l : list R) : Prop :=
  In M l /\ forall x : R, In x l -> x <= M.

Definition is_min (m : R) (l : list R) : Prop :=
  In m l /\ forall x : R, In x l -> m <= x.

(** A satellite one unit left of and one unit above the planet's centre
    (screen coordinates). *)
Definition sat_upper_left : Satellite.t :=
  Satellite.mk image_sat 399 319 3 0 0 100 1 0.

(** Whether any of the four arrow keys is held. *)
Definition any_arrow (k : Keys) : bool :=
  K_RIGHT k || K_LEFT k || K_UP k || K_DOWN k.

(** The velocity change [check_keys] asks of the thrusters: right, left, up,
    down, the first held key only. *)
Definition key_thrust (k : Keys) : R * R :=
  if K_RIGHT k then (5 / 100, 0)
  else if K_LEFT k then (- (5 / 100), 0)
  else if K_UP k then (0, - (5 / 100))
  else if K_DOWN k then (0, 5 / 100)
  else (0, 0).

(** Out of fuel on a 100-unit orbit. *)
Definition adrift : Game :=
  mkGame Planet.init (Satellite.mk image_sat 400 220 3 0 0 0 1 100)
         [] 1 0 false true.

Definition hold_right : Input := mkInput [] (mkKeys true false false false) 0.

(** The same input with every arrow key released. *)
Definition release (inp : Input) : Input :=
  mkInput (events inp) no_keys (get_ticks inp).

(** Event tests. *)
Definition is_quit (e : Event) : bool :=
  match e with QUIT => true | _ => false end.

Definition is_keyup (e : Event) : bool :=
  match e with KEYUP _ => true | _ => false end.

(** The sample window is in step with the pass counter: it holds one
    sample per pass since the last recalculation. *)
Definition window_in_step (g : Game) : Prop :=
  (0 <= tick_count g)%Z
  /\ Z.of_nat (length (dist_list g)) = (tick_count g mod 150)%Z.

(** Inside the atmosphere with fuel left, and not on the planet's centre. *)
Definition grounded (g : Game) : Prop :=
  (0 < Satellite.fuel (sat g))%Z
  /\ 0 < separation (planet g) (sat g) <= 68.

(** The samples a pass can meet are sound: none negative, and the distance
    stored in the satellite positive. *)
Definition samples_sound (g : Game) : Prop :=
  (forall x : R, In x (dist_list g) -> 0 <= x)
  /\ 0 < Satellite.distance (sat g).

(** What holds of the game during the first 299 passes after [main]'s
    initialisation. *)
Definition early (g : Game) : Prop :=
  (0 <= tick_count g)%Z
  /\ ((tick_count g < 300)%Z ->
      eccentricity g = 1 /\ mapping_enabled g = false)
  /\ (tick_count g = 0%Z ->
      dist_list g = [] /\ Satellite.distance (sat g) = 0)
  /\ ((0 < tick_count g < 150)%Z ->
      0 < Satellite.distance (sat g)
      /\ exists l : list R,
           dist_list g = 0 :: l /\ forall x : R, In x l -> 0 < x).

(** Fuel left, but 50 from the planet's centre: inside the atmosphere. *)
Definition sinking : Game :=
  mkGame Planet.init (Satellite.mk image_sat 400 270 3 0 0 100 1 50)
         [] 1 0 false true.

(** An input with no arrow key held. *)
Definition hands_off (inp : Input) : Prop := any_arrow (keys inp) = false.

(** * Properties *)

(** ** The boolean tests *)

Lemma Rleb_true (a b : R) : Rleb a b = true <-> a <= b.
Proof.
  unfold Rleb. destruct (Rle_dec a b); split; intros; auto; discriminate.
Qed.

Lemma Rleb_false (a b : R) : Rleb a b = false <-> b < a.
Proof.
  unfold Rleb. destruct (Rle_dec a b); split; intros; auto;
    try discriminate; lra.
Qed.

Lemma Rltb_true (a b : R) : Rltb a b = true <-> a < b.
Proof.
  unfold Rltb. destruct (Rlt_dec a b); split; intros; auto; discriminate.
Qed.

Lemma Rltb_false (a b : R) : Rltb a b = false <-> b <= a.
Proof.
  unfold Rltb. destruct (Rlt_dec a b); split; intros; auto;
    try discriminate; lra.
Qed.

Lemma Reqb_true (a b : R) : Reqb a b = true <-> a = b.
Proof.
  unfold Reqb. destruct (Req_dec_T a b); split; intros; auto; discriminate.
Qed.

Lemma Reqb_false (a b : R) : Reqb a b = false <-> a <> b.
Proof.
  unfold Reqb. destruct (Req_dec_T a b); split; intros; auto;
    try discriminate; contradiction.
Qed.

(** Settle a comparison between two numerals, whichever way it goes. *)
Ltac Rtest :=
  repeat match goal with
  | |- context [Rleb ?a ?b] =>
      first [ replace (Rleb a b) with true
                by (symmetry; apply Rleb_true; lra)
            | replace (Rleb a b) with false
                by (symmetry; apply Rleb_false; lra) ]
  | |- context [Rltb ?a ?b] =>
      first [ replace (Rltb a b) with true
                by (symmetry; apply Rltb_true; lra)
            | replace (Rltb a b) with false
                by (symmetry; apply Rltb_false; lra) ]
  | |- context [Reqb ?a ?b] =>
      first [ replace (Reqb a b) with true
                by (symmetry; apply Reqb_true; lra)
            | replace (Reqb a b) with false
                by (symmetry; apply Reqb_false; lra) ]
  end.

(** ** Division and the Euclidean norm *)

Lemma truediv_Ok (a b : R) : b <> 0 -> truediv a b = Ok (a / b).
Proof.
  intros Hb. unfold truediv.
  now replace (Reqb b 0) with false by (symmetry; now apply Reqb_false).
Qed.

Lemma truediv_zero (a : R) : truediv a 0 = Raise ZeroDivisionError.
Proof.
  unfold truediv.
  now replace (Reqb 0 0) with true by (symmetry; now apply Reqb_true).
Qed.

Lemma truediv_inv (a b c : R) : truediv a b = Ok c -> b <> 0 /\ c = a / b.
Proof.
  unfold truediv. destruct (Reqb b 0) eqn:E; [discriminate|].
  apply Reqb_false in E. intros [= <-]. auto.
Qed.

Lemma sum_sqr_nonneg (a b : R) : 0 <= a * a + b * b.
Proof. nra. Qed.

Lemma hypot_nonneg (a b : R) : 0 <= hypot a b.
Proof. apply sqrt_pos. Qed.

Lemma hypot_sqr (a b : R) : hypot a b * hypot a b = a * a + b * b.
Proof. apply sqrt_sqrt, sum_sqr_nonneg. Qed.

Lemma hypot_zero (a b : R) : hypot a b = 0 <-> a = 0 /\ b = 0.
Proof.
  split.
  - intros H. pose proof (hypot_sqr a b) as E. rewrite H in E. nra.
  - intros [-> ->]. unfold hypot.
    replace (0 * 0 + 0 * 0) with 0 by ring. apply sqrt_0.
Qed.

Lemma hypot_axis (b : R) : 0 <= b -> hypot 0 b = b.
Proof.
  intros Hb. unfold hypot.
  replace (0 * 0 + b * b) with (b * b) by ring. now apply sqrt_square.
Qed.

Lemma hypot_scale (k a b : R) : hypot (a * k) (b * k) = hypot a b * Rabs k.
Proof.
  unfold hypot.
  replace (a * k * (a * k) + b * k * (b * k))
    with ((a * a + b * b) * (k * k)) by ring.
  rewrite sqrt_mult_alt by apply sum_sqr_nonneg.
  f_equal. fold (Rsqr k). apply sqrt_Rsqr_abs.
Qed.

Lemma gravity_Ok (p : Planet.t) (s : Satellite.t) :
  separation p s <> 0 -> gravity p s = Ok (p, pulled p s).
Proof.
  intros Hd. unfold gravity. fold (separation p s).
  rewrite !truediv_Ok by assumption. cbn [bind].
  rewrite truediv_Ok by (apply pow_nonzero; assumption).
  reflexivity.
Qed.

Lemma gravity_Raise (p : Planet.t) (s : Satellite.t) :
  separation p s = 0 -> gravity p s = Raise ZeroDivisionError.
Proof.
  intros Hd. unfold gravity. fold (separation p s).
  rewrite Hd, truediv_zero. reflexivity.
Qed.

Lemma gravity_cases (p : Planet.t) (s : Satellite.t) :
  (separation p s = 0 /\ gravity p s = Raise ZeroDivisionError)
  \/ (separation p s <> 0 /\ gravity p s = Ok (p, pulled p s)).
Proof.
  destruct (Req_dec_T (separation p s) 0) as [E | E].
  - left. split; [assumption | now apply gravity_Raise].
  - right. split; [assumption | now apply gravity_Ok].
Qed.

(** ** Planet.gravity *)

Lemma unit_vector (a b : R) :
  hypot a b <> 0 -> hypot (a / hypot a b) (b / hypot a b) = 1.
Proof.
  intros Hd. unfold Rdiv. rewrite hypot_scale.
  rewrite Rabs_pos_eq.
  - now apply Rinv_r.
  - apply Rlt_le, Rinv_0_lt_compat.
    pose proof (hypot_nonneg a b). lra.
Qed.

Lemma delta_v_pulled (p : Planet.t) (s : Satellite.t) :
  separation p s <> 0 ->
  delta_v s (pulled p s)
  = Rabs (IZR (Satellite.mass s * Planet.mass p)) / (separation p s) ^ 2.
Proof.
  intros Hd. unfold delta_v, pulled. cbn [Satellite.dx Satellite.dy].
  set (d := separation p s) in *.
  set (K := IZR (Satellite.mass s * Planet.mass p)).
  replace (Satellite.dx s + (Planet.x p - Satellite.x s) / d * (1 * K / d ^ 2)
           - Satellite.dx s)
    with ((Planet.x p - Satellite.x s) / d * (K / d ^ 2))
    by (field; assumption).
  replace (Satellite.dy s + (Planet.y p - Satellite.y s) / d * (1 * K / d ^ 2)
           - Satellite.dy s)
    with ((Planet.y p - Satellite.y s) / d * (K / d ^ 2))
    by (field; assumption).
  rewrite hypot_scale. unfold d at 1 2, separation.
  rewrite unit_vector by exact Hd.
  fold (separation p s). fold d.
  unfold Rdiv at 1. rewrite Rabs_mult, Rmult_1_l.
  rewrite (Rabs_pos_eq (/ d ^ 2)); [reflexivity|].
  apply Rlt_le, Rinv_0_lt_compat.
  assert (d * d <> 0) by (apply Rmult_integral_contrapositive; auto).
  simpl. nra.
Qed.

(** C10.  Whenever the satellite is not on the planet's centre,
    [Planet.gravity] returns, the planet it returns is the planet it was
    given, and of the satellite only [dx] and [dy] may differ: position,
    fuel, heading, distance, mass (and image) are the same. *)
Theorem gravity_changes_only_velocity (p : Planet.t) (s : Satellite.t) :
  0 < separation p s ->
  exists s' : Satellite.t,
    gravity p s = Ok (p, s')
    /\ Satellite.x s' = Satellite.x s
    /\ Satellite.y s' = Satellite.y s
    /\ Satellite.fuel s' = Satellite.fuel s
    /\ Satellite.heading s' = Satellite.heading s
    /\ Satellite.distance s' = Satellite.distance s
    /\ Satellite.mass s' = Satellite.mass s
    /\ Satellite.image s' = Satellite.image s.
Proof.
  intros Hd. exists (pulled p s). split.
  - apply gravity_Ok. lra.
  - repeat split.
Qed.

(** C7.  At a separation [d > 0] the velocity gains the vector
    [(planet - satellite) / d], which has length 1, times
    [G * mass_satellite * mass_planet / d^2] with [G = 1]; and a satellite
    of the same mass at twice the separation receives a quarter of the
    change of velocity. *)
Theorem gravity_inverse_square (p : Planet.t) (s : Satellite.t) :
  let d := separation p s in
  let ux := (Planet.x p - Satellite.x s) / d in
  let uy := (Planet.y p - Satellite.y s) / d in
  let force := 1 * (IZR (Satellite.mass s) * IZR (Planet.mass p)) / (d * d) in
  0 < d ->
  exists s' : Satellite.t,
    gravity p s = Ok (p, s')
    /\ Satellite.dx s' = Satellite.dx s + ux * force
    /\ Satellite.dy s' = Satellite.dy s + uy * force
    /\ hypot ux uy = 1
    /\ forall s2 : Satellite.t,
         Satellite.mass s2 = Satellite.mass s ->
         separation p s2 = 2 * d ->
         exists s2' : Satellite.t,
           gravity p s2 = Ok (p, s2')
           /\ delta_v s2 s2' = delta_v s s' / 4.
Proof.
  intros d ux uy force Hd.
  assert (Hd0 : separation p s <> 0) by (fold d; lra).
  exists (pulled p s). split; [now apply gravity_Ok|].
  split; [|split; [|split]].
  - unfold pulled, ux, force. cbn [Satellite.dx]. fold d.
    rewrite mult_IZR. f_equal. f_equal. simpl. field. fold d in Hd0. lra.
  - unfold pulled, uy, force. cbn [Satellite.dy]. fold d.
    rewrite mult_IZR. f_equal. f_equal. simpl. field. fold d in Hd0. lra.
  - unfold ux, uy, d, separation. apply unit_vector. exact Hd0.
  - intros s2 Hm H2.
    assert (H20 : separation p s2 <> 0) by (rewrite H2; lra).
    exists (pulled p s2). split; [now apply gravity_Ok|].
    rewrite !delta_v_pulled by assumption.
    rewrite H2, Hm. fold d. field. lra.
Qed.

Lemma gravity_inverse_square_witness :
  exists s' : Satellite.t,
    gravity Planet.init (Satellite.init 400 100 3) = Ok (Planet.init, s')
    /\ Satellite.dy s' = 0 + 220 / 220 * (1 * (1 * 2000) / (220 * 220)).
Proof.
  assert (E : separation Planet.init (Satellite.init 400 100 3) = 220).
  { unfold separation. cbn.
    replace (400 - 400) with 0 by ring.
    replace (320 - 100) with 220 by ring.
    apply hypot_axis. lra. }
  destruct (gravity_inverse_square Planet.init (Satellite.init 400 100 3))
    as (s' & Hg & _ & Hy & _).
  - rewrite E. lra.
  - exists s'. split; [exact Hg|].
    rewrite Hy, E. cbn. 
    replace (320 - 100) with 220 by ring. reflexivity.
Defined.

Lemma gravity_changes_only_velocity_witness :
  exists s' : Satellite.t,
    gravity Planet.init (Satellite.init 400 100 3) = Ok (Planet.init, s')
    /\ Satellite.x s' = 400 /\ Satellite.y s' = 100
    /\ Satellite.fuel s' = 100%Z.
Proof.
  destruct (gravity_changes_only_velocity Planet.init
              (Satellite.init 400 100 3))
    as (s' & Hg & Hx & Hy & Hf & _).
  - unfold separation. cbn.
    replace (400 - 400) with 0 by ring. rewrite hypot_axis; lra.
  - exists s'. repeat split; assumption.
Defined.

(** ** The loop body *)

Lemma handle_event_planet (m : bool) (st : bool * Planet.t) (e : Event) :
  Planet.x (snd (handle_event m st e)) = Planet.x (snd st)
  /\ Planet.y (snd (handle_event m st e)) = Planet.y (snd st)
  /\ Planet.mass (snd (handle_event m st e)) = Planet.mass (snd st).
Proof.
  destruct st as [r p]. destruct e as [| [] | k |]; destruct m; cbn; auto.
Qed.

Lemma handle_events_planet (m : bool) (evs : list Event)
      (st : bool * Planet.t) :
  Planet.x (snd (fold_left (handle_event m) evs st)) = Planet.x (snd st)
  /\ Planet.y (snd (fold_left (handle_event m) evs st)) = Planet.y (snd st)
  /\ Planet.mass (snd (fold_left (handle_event m) evs st))
     = Planet.mass (snd st).
Proof.
  revert st. induction evs as [| e evs IH]; intros st; cbn [fold_left].
  - auto.
  - destruct (IH (handle_event m st e)) as (Hx & Hy & Hm).
    destruct (handle_event_planet m st e) as (Hx' & Hy' & Hm').
    rewrite Hx, Hy, Hm. auto.
Qed.

Lemma poll_events_planet (g : Game) (inp : Input) :
  Planet.x (snd (poll_events g inp)) = Planet.x (planet g)
  /\ Planet.y (snd (poll_events g inp)) = Planet.y (planet g)
  /\ Planet.mass (snd (poll_events g inp)) = Planet.mass (planet g).
Proof.
  unfold poll_events.
  apply (handle_events_planet (mapping_enabled g) (events inp)
           (running g, planet g)).
Qed.

Lemma separation_located (g : Game) (inp : Input) :
  separation (snd (poll_events g inp)) (located g inp)
  = separation (planet g) (sat g).
Proof.
  destruct (poll_events_planet g inp) as (Hx & Hy & _).
  unfold separation, located, Satellite.locate.
  cbn [Satellite.x Satellite.y]. now rewrite Hx, Hy.
Qed.

Lemma hypot_swap (a b c d : R) : hypot (a - b) (c - d) = hypot (b - a) (d - c).
Proof. unfold hypot. f_equal. ring. Qed.

Lemma distance_located (g : Game) (inp : Input) :
  Satellite.distance (located g inp) = separation (planet g) (sat g).
Proof.
  destruct (poll_events_planet g inp) as (Hx & Hy & _).
  unfold separation, located, Satellite.locate.
  cbn [Satellite.distance]. rewrite Hx, Hy. apply hypot_swap.
Qed.

Lemma tick_Ok (g : Game) (inp : Input) :
  separation (planet g) (sat g) <> 0 ->
  tick g inp
  = (ed <- recalc_eccentricity (tick_count g + 1) (eccentricity g)
             (dist_list g ++ [Satellite.distance (sat g)]) ;;
     Ok (tick_finish g inp ed)).
Proof.
  intros Hd. rewrite <- separation_located with (inp := inp) in Hd.
  unfold tick, tick_finish, located in *.
  destruct (poll_events g inp) as [running1 planet1]. cbn [fst snd] in *.
  rewrite gravity_Ok by exact Hd. cbn [bind].
  destruct (recalc_eccentricity _ _ _) as [[e dl] |]; cbn [bind fst snd];
    [| reflexivity].
  destruct (fail_conditions _) as [sat3 msg]. reflexivity.
Qed.

Lemma tick_Raise (g : Game) (inp : Input) :
  separation (planet g) (sat g) = 0 ->
  tick g inp = Raise ZeroDivisionError.
Proof.
  intros Hd. rewrite <- separation_located with (inp := inp) in Hd.
  unfold tick, located in *.
  destruct (poll_events g inp) as [running1 planet1]. cbn [fst snd] in *.
  now rewrite gravity_Raise by exact Hd.
Qed.

Lemma tick_inv (g : Game) (inp : Input) (g' : Game) (f : Frame) :
  tick g inp = Ok (g', f) ->
  separation (planet g) (sat g) <> 0
  /\ exists ed : R * list R,
       recalc_eccentricity (tick_count g + 1) (eccentricity g)
         (dist_list g ++ [Satellite.distance (sat g)]) = Ok ed
       /\ (g', f) = tick_finish g inp ed.
Proof.
  intros H.
  destruct (Req_dec_T (separation (planet g) (sat g)) 0) as [E | E].
  - rewrite tick_Raise in H by exact E. discriminate.
  - split; [exact E|]. rewrite tick_Ok in H by exact E.
    destruct (recalc_eccentricity _ _ _) as [ed |]; [| discriminate].
    exists ed. split; [reflexivity|]. cbn [bind] in H. congruence.
Qed.

(** ** Division by zero in Planet.gravity *)

(** C8, as stated, fails: with the satellite on the planet's centre the
    distance is 0 and the first division of [Planet.gravity] raises
    [ZeroDivisionError]; nothing tests the distance before dividing. *)
Lemma gravity_divides_by_zero :
  separation Planet.init sat_at_centre = 0
  /\ gravity Planet.init sat_at_centre = Raise ZeroDivisionError.
Proof.
  assert (E : separation Planet.init sat_at_centre = 0).
  { unfold separation. cbn. apply hypot_zero. split; ring. }
  split; [exact E | now apply gravity_Raise].
Qed.

(** C8, amended.  [Planet.gravity] has no guard against a distance of 0:
    when the two positions coincide its first division raises
    [ZeroDivisionError].  The loop body does not catch the exception: a
    pass that starts with the satellite on the planet's centre ends in the
    same [ZeroDivisionError]. *)
Theorem gravity_raises_when_coincident :
  (forall (p : Planet.t) (s : Satellite.t),
     Satellite.x s = Planet.x p /\ Satellite.y s = Planet.y p ->
     gravity p s = Raise ZeroDivisionError)
  /\ (forall (g : Game) (inp : Input),
        Satellite.x (sat g) = Planet.x (planet g)
        /\ Satellite.y (sat g) = Planet.y (planet g) ->
        tick g inp = Raise ZeroDivisionError).
Proof.
  assert (Hz : forall (p : Planet.t) (s : Satellite.t),
             Satellite.x s = Planet.x p /\ Satellite.y s = Planet.y p ->
             separation p s = 0).
  { intros p s [Hx Hy]. unfold separation.
    apply hypot_zero. rewrite Hx, Hy. split; ring. }
  split.
  - intros p s H. apply gravity_Raise, Hz, H.
  - intros g inp H. apply tick_Raise, Hz, H.
Qed.

Lemma gravity_raises_when_coincident_witness :
  gravity Planet.init sat_at_centre = Raise ZeroDivisionError
  /\ tick (mkGame Planet.init sat_at_centre [] 1 0 false true) idle
     = Raise ZeroDivisionError.
Proof.
  destruct gravity_raises_when_coincident as (Hraise & Hpass).
  split.
  - apply Hraise. cbn. split; reflexivity.
  - apply Hpass. cbn. split; reflexivity.
Defined.

(** ** The fail conditions *)

Lemma fail_conditions_fuel (s : Satellite.t) :
  (Satellite.fuel s <= 0)%Z ->
  fail_conditions s = (fuel_depleted s, [Fuel_depleted]).
Proof.
  intros Hf. unfold fail_conditions.
  now replace (Satellite.fuel s <=? 0)%Z with true
    by (symmetry; now apply Z.leb_le).
Qed.

Lemma pulled_fuel (p : Planet.t) (s : Satellite.t) :
  Satellite.fuel (pulled p s) = Satellite.fuel s.
Proof. reflexivity. Qed.

Lemma pulled_distance (p : Planet.t) (s : Satellite.t) :
  Satellite.distance (pulled p s) = Satellite.distance s.
Proof. reflexivity. Qed.

Lemma located_fuel (g : Game) (inp : Input) :
  Satellite.fuel (located g inp) = Satellite.fuel (sat g).
Proof. reflexivity. Qed.

Lemma recalc_off_interval (count : Z) (ecc : R) (samples : list R) :
  (count mod 150 <> 0)%Z ->
  recalc_eccentricity count ecc samples = Ok (ecc, samples).
Proof.
  intros H. unfold recalc_eccentricity.
  change (eccentricty_calc_interval * fps)%Z with 150%Z.
  now replace (count mod 150 =? 0)%Z with false
    by (symmetry; now apply Z.eqb_neq).
Qed.

Lemma low_and_dry_separation :
  separation (planet low_and_dry) (sat low_and_dry) = 50.
Proof.
  unfold separation. cbn.
  replace (400 - 400) with 0 by ring. replace (320 - 270) with 50 by ring.
  apply hypot_axis. lra.
Qed.

Lemma low_and_dry_tick (inp : Input) :
  tick low_and_dry inp = Ok (tick_finish low_and_dry inp (1, [0])).
Proof.
  rewrite tick_Ok by (rewrite low_and_dry_separation; lra).
  rewrite recalc_off_interval by (cbn; lia). reflexivity.
Qed.

(** C1.  In a pass that starts with no fuel left and locates the satellite
    at 68 or less from the planet, the fuel branch runs and the altitude
    branch does not: the frame shows "Fuel depleted" and not "Atmospheric
    entry", and the satellite that goes on to [update] is the one after
    gravity with [fuel = 0] and [dx = 2] (its [dy] is not zeroed). *)
Theorem fuel_check_precedes_atmosphere
        (g : Game) (inp : Input) (g' : Game) (f : Frame) :
  (Satellite.fuel (sat g) <= 0)%Z ->
  Satellite.distance (located g inp) <= 68 ->
  tick g inp = Ok (g', f) ->
  In Fuel_depleted (messages f)
  /\ ~ In Atmospheric_entry (messages f)
  /\ exists s2 : Satellite.t,
       gravity (snd (poll_events g inp)) (located g inp)
       = Ok (snd (poll_events g inp), s2)
       /\ fail_conditions s2 = (fuel_depleted s2, [Fuel_depleted])
       /\ sat g' = Satellite.update (keys inp) (fuel_depleted s2).
Proof.
  intros Hfuel _ Ht.
  destruct (tick_inv g inp g' f Ht) as (Hd & ed & _ & E).
  set (s2 := pulled (snd (poll_events g inp)) (located g inp)).
  assert (Hfc : fail_conditions s2 = (fuel_depleted s2, [Fuel_depleted])).
  { apply fail_conditions_fuel. unfold s2.
    now rewrite pulled_fuel, located_fuel. }
  unfold tick_finish in E. fold s2 in E. rewrite Hfc in E.
  cbn [fst snd] in E. injection E as -> ->. cbn [messages sat].
  split; [now left|]. split.
  - cbn [app]. intros [H | H]; [discriminate|].
    apply in_app_or in H.
    destruct (mapping_test _ _), (get_ticks inp <=? 15000)%Z;
      cbn in H; intuition discriminate.
  - exists s2. split; [|split; [exact Hfc | reflexivity]].
    apply gravity_Ok. now rewrite separation_located.
Qed.

Lemma fuel_check_precedes_atmosphere_witness :
  exists (g' : Game) (f : Frame),
    tick low_and_dry idle = Ok (g', f)
    /\ In Fuel_depleted (messages f)
    /\ ~ In Atmospheric_entry (messages f).
Proof.
  exists (fst (tick_finish low_and_dry idle (1, [0]))),
         (snd (tick_finish low_and_dry idle (1, [0]))).
  assert (Ht : tick low_and_dry idle
               = Ok (fst (tick_finish low_and_dry idle (1, [0])),
                     snd (tick_finish low_and_dry idle (1, [0])))).
  { rewrite low_and_dry_tick. now destruct (tick_finish _ _ _). }
  split; [exact Ht|].
  assert (Hfuel : (Satellite.fuel (sat low_and_dry) <= 0)%Z)
    by (cbn; lia).
  assert (Hlow : Satellite.distance (located low_and_dry idle) <= 68)
    by (rewrite distance_located, low_and_dry_separation; lra).
  destruct (fuel_check_precedes_atmosphere low_and_dry idle _ _
              Hfuel Hlow Ht) as (H1 & H2 & _).
  split; assumption.
Defined.

(** ** Mapping eligibility *)

Lemma mapping_test_true (ecc : R) (s : Satellite.t) :
  mapping_test ecc s = true
  <-> ecc < 5 / 100 /\ 69 <= Satellite.distance s <= 120.
Proof.
  unfold mapping_test. rewrite !andb_true_iff, Rltb_true, !Rleb_true.
  tauto.
Qed.

Lemma check_keys_distance (k : Keys) (s : Satellite.t) :
  Satellite.distance (Satellite.check_keys k s) = Satellite.distance s.
Proof.
  unfold Satellite.check_keys.
  destruct (K_RIGHT k), (K_LEFT k), (K_UP k), (K_DOWN k); reflexivity.
Qed.

Lemma update_distance (k : Keys) (s : Satellite.t) :
  Satellite.distance (Satellite.update k s) = Satellite.distance s.
Proof.
  unfold Satellite.update.
  destruct (_ && _); cbn [Satellite.set_image Satellite.path Satellite.rotate
                          Satellite.distance]; apply check_keys_distance.
Qed.

Lemma fail_conditions_distance (s : Satellite.t) :
  Satellite.distance (fst (fail_conditions s)) = Satellite.distance s.
Proof.
  unfold fail_conditions.
  destruct (_ <=? _)%Z; [reflexivity|]. destruct (Rleb _ _); reflexivity.
Qed.

Lemma tick_finish_distance (g : Game) (inp : Input) (ed : R * list R) :
  Satellite.distance (sat (fst (tick_finish g inp ed)))
  = separation (planet g) (sat g).
Proof.
  unfold tick_finish. cbn [fst sat].
  rewrite update_distance, fail_conditions_distance, pulled_distance.
  apply distance_located.
Qed.

(** C4.  After every pass [mapping_enabled] is true exactly when the
    eccentricity estimate current in that pass is below 0.05 and the
    distance located in that pass is between 69 and 120, ends included;
    the hint "Press & hold m" is drawn in exactly those passes.  With the
    estimate at 0.04 and distance 100 the test is true, at 0.06 and 100 it
    is false, at 0.04 and 65 it is false. *)
Theorem mapping_enabled_iff :
  (forall (g : Game) (inp : Input) (g' : Game) (f : Frame),
     tick g inp = Ok (g', f) ->
     Satellite.distance (sat g') = separation (planet g) (sat g)
     /\ eccentricity g' = readout_eccentricity f
     /\ (mapping_enabled g' = true
         <-> eccentricity g' < 5 / 100
             /\ 69 <= Satellite.distance (sat g') <= 120)
     /\ (In Map_instruct (messages f) <-> mapping_enabled g' = true))
  /\ (forall s : Satellite.t,
        Satellite.distance s = 100 -> mapping_test (4 / 100) s = true)
  /\ (forall s : Satellite.t,
        Satellite.distance s = 100 -> mapping_test (6 / 100) s = false)
  /\ (forall s : Satellite.t,
        Satellite.distance s = 65 -> mapping_test (4 / 100) s = false).
Proof.
  split; [| split; [| split]].
  - intros g inp g' f Ht.
    destruct (tick_inv g inp g' f Ht) as (Hd & ed & _ & E).
    assert (Eg : g' = fst (tick_finish g inp ed)) by now rewrite <- E.
    assert (Ef : f = snd (tick_finish g inp ed)) by now rewrite <- E.
    assert (Hdist : Satellite.distance (sat g')
                    = separation (planet g) (sat g))
      by (rewrite Eg; apply tick_finish_distance).
    split; [exact Hdist|]. split; [now rewrite Eg, Ef|].
    split.
    + rewrite Hdist. rewrite Eg. unfold tick_finish.
      cbn [fst mapping_enabled eccentricity].
      rewrite mapping_test_true, fail_conditions_distance, pulled_distance.
      now rewrite distance_located.
    + rewrite Eg, Ef. unfold tick_finish.
      cbn [fst snd mapping_enabled messages].
      set (fc := fail_conditions _).
      assert (Hfc : ~ In Map_instruct (snd fc)).
      { unfold fc, fail_conditions.
        destruct (_ <=? _)%Z; [cbn; intuition discriminate|].
        destruct (Rleb _ _); cbn; intuition discriminate. }
      destruct (mapping_test (fst ed) (fst fc)).
      * split; [reflexivity|]. intros _.
        apply in_or_app. right. now left.
      * split; [| discriminate]. intros H.
        apply in_app_or in H. destruct H as [H | H]; [contradiction|].
        destruct (get_ticks inp <=? 15000)%Z; cbn in H;
          intuition discriminate.
  - intros s Hs. apply mapping_test_true. rewrite Hs. lra.
  - intros s Hs. apply not_true_is_false. rewrite mapping_test_true. lra.
  - intros s Hs. apply not_true_is_false. rewrite mapping_test_true, Hs. lra.
Qed.

Lemma cruising_separation :
  separation (planet cruising) (sat cruising) = 100.
Proof.
  unfold separation. cbn.
  replace (400 - 400) with 0 by ring. replace (320 - 220) with 100 by ring.
  apply hypot_axis. lra.
Qed.

Lemma cruising_tick (inp : Input) :
  tick cruising inp = Ok (tick_finish cruising inp (4 / 100, [100])).
Proof.
  rewrite tick_Ok by (rewrite cruising_separation; lra).
  rewrite recalc_off_interval by (cbn; lia). reflexivity.
Qed.

Lemma mapping_enabled_iff_witness :
  (exists (g' : Game) (f : Frame),
     tick cruising idle = Ok (g', f) /\ mapping_enabled g' = true)
  /\ mapping_test (4 / 100) (sat cruising) = true
  /\ mapping_test (6 / 100) (sat cruising) = false
  /\ mapping_test (4 / 100)
       (Satellite.mk image_sat 400 255 3 0 0 100 1 65) = false.
Proof.
  destruct mapping_enabled_iff as (Htick & H1 & H2 & H3).
  split; [| split; [| split]].
  - exists (fst (tick_finish cruising idle (4 / 100, [100]))),
           (snd (tick_finish cruising idle (4 / 100, [100]))).
    assert (Ht : tick cruising idle
                 = Ok (fst (tick_finish cruising idle (4 / 100, [100])),
                       snd (tick_finish cruising idle (4 / 100, [100])))).
    { rewrite cruising_tick. now destruct (tick_finish _ _ _). }
    split; [exact Ht|].
    destruct (Htick _ _ _ _ Ht) as (Hd & _ & Hm & _).
    apply Hm. rewrite Hd, cruising_separation.
    unfold tick_finish. cbn [fst eccentricity]. lra.
  - apply H1. reflexivity.
  - apply H2. reflexivity.
  - apply H3. reflexivity.
Defined.

(** ** calc_eccentricity *)

Lemma fold_left_Rmax_is_max (l : list R) (a : R) :
  is_max (fold_left Rmax l a) (a :: l).
Proof.
  revert a. induction l as [| b l IH]; intros a; cbn [fold_left].
  - split; [now left|]. intros x [<- | []]. lra.
  - destruct (IH (Rmax a b)) as [Hin Hub]. split.
    + destruct Hin as [E | Hin].
      * rewrite <- E. unfold Rmax. destruct (Rle_dec a b).
        -- right. now left.
        -- now left.
      * right. now right.
    + intros x [<- | [<- | Hx]].
      * apply Rle_trans with (Rmax a b); [apply Rmax_l|].
        apply Hub. now left.
      * apply Rle_trans with (Rmax a b); [apply Rmax_r|].
        apply Hub. now left.
      * apply Hub. now right.
Qed.

Lemma fold_left_Rmin_is_min (l : list R) (a : R) :
  is_min (fold_left Rmin l a) (a :: l).
Proof.
  revert a. induction l as [| b l IH]; intros a; cbn [fold_left].
  - split; [now left|]. intros x [<- | []]. lra.
  - destruct (IH (Rmin a b)) as [Hin Hlb]. split.
    + destruct Hin as [E | Hin].
      * rewrite <- E. unfold Rmin. destruct (Rle_dec a b).
        -- now left.
        -- right. now left.
      * right. now right.
    + intros x [<- | [<- | Hx]].
      * apply Rle_trans with (Rmin a b); [|apply Rmin_l].
        apply Hlb. now left.
      * apply Rle_trans with (Rmin a b); [|apply Rmin_r].
        apply Hlb. now left.
      * apply Hlb. now right.
Qed.

Lemma is_max_unique (l : list R) (M M' : R) :
  is_max M l -> is_max M' l -> M = M'.
Proof.
  intros [Hin Hub] [Hin' Hub']. apply Rle_antisym; auto.
Qed.

Lemma is_min_unique (l : list R) (m m' : R) :
  is_min m l -> is_min m' l -> m = m'.
Proof.
  intros [Hin Hlb] [Hin' Hlb']. apply Rle_antisym; auto.
Qed.

Lemma py_max_Ok (l : list R) (M : R) : is_max M l -> py_max l = Ok M.
Proof.
  destruct l as [| a l]; intros HM.
  - destruct HM as [[] _].
  - cbn [py_max]. f_equal.
    apply is_max_unique with (a :: l); [apply fold_left_Rmax_is_max | exact HM].
Qed.

Lemma py_min_Ok (l : list R) (m : R) : is_min m l -> py_min l = Ok m.
Proof.
  destruct l as [| a l]; intros Hm.
  - destruct Hm as [[] _].
  - cbn [py_min]. f_equal.
    apply is_min_unique with (a :: l); [apply fold_left_Rmin_is_min | exact Hm].
Qed.

Lemma is_max_singleton (d : R) : is_max d [d].
Proof. split; [now left|]. intros x [<- | []]. lra. Qed.

Lemma is_min_singleton (d : R) : is_min d [d].
Proof. split; [now left|]. intros x [<- | []]. lra. Qed.

(** C5, as stated, fails: on the one-sample list [[0]] (the value
    [Satellite.__init__] gives [distance]) the quotient is 0 / 0 and
    [calc_eccentricity] raises instead of returning 0. *)
Lemma calc_eccentricity_single_zero :
  calc_eccentricity [0] = Raise ZeroDivisionError
  /\ calc_eccentricity [0] <> Ok 0.
Proof.
  assert (E : calc_eccentricity [0] = Raise ZeroDivisionError).
  { unfold calc_eccentricity. cbn [py_max py_min fold_left bind].
    replace (0 + 0) with 0 by ring. apply truediv_zero. }
  split; [exact E|]. rewrite E. discriminate.
Qed.

Lemma calc_eccentricity_Ok (l : list R) (M m : R) :
  is_max M l -> is_min m l -> M + m <> 0 ->
  calc_eccentricity l = Ok ((M - m) / (M + m)).
Proof.
  intros HM Hm Hs. unfold calc_eccentricity.
  rewrite (py_max_Ok l M HM), (py_min_Ok l m Hm). cbn [bind].
  now apply truediv_Ok.
Qed.

(** C5, amended.  On a list whose greatest sample [M] and least sample [m]
    have a non-zero sum, [calc_eccentricity] returns [(M - m) / (M + m)];
    when the sum is zero it raises [ZeroDivisionError], and on the empty
    list [ValueError].  So [[d]] gives 0 for every [d] other than 0, and
    [[69, 120]] gives [(120 - 69) / (120 + 69)]. *)
Theorem calc_eccentricity_spec :
  (forall (l : list R) (M m : R),
     is_max M l -> is_min m l -> M + m <> 0 ->
     calc_eccentricity l = Ok ((M - m) / (M + m)))
  /\ (forall (l : list R) (M m : R),
        is_max M l -> is_min m l -> M + m = 0 ->
        calc_eccentricity l = Raise ZeroDivisionError)
  /\ calc_eccentricity [] = Raise ValueError
  /\ (forall d : R, d <> 0 -> calc_eccentricity [d] = Ok 0)
  /\ calc_eccentricity [69; 120] = Ok ((120 - 69) / (120 + 69)).
Proof.
  pose proof calc_eccentricity_Ok as Hgen.
  split; [exact Hgen|]. split; [| split; [| split]].
  - intros l M m HM Hm Hs. unfold calc_eccentricity.
    rewrite (py_max_Ok l M HM), (py_min_Ok l m Hm). cbn [bind].
    rewrite Hs. apply truediv_zero.
  - reflexivity.
  - intros d Hd.
    rewrite (Hgen [d] d d (is_max_singleton d) (is_min_singleton d))
      by lra.
    f_equal. field. lra.
  - apply Hgen; [| | lra].
    + split; [right; now left|]. intros x [<- | [<- | []]]; lra.
    + split; [now left|]. intros x [<- | [<- | []]]; lra.
Qed.

Lemma calc_eccentricity_spec_witness :
  calc_eccentricity [100; 80; 120] = Ok ((120 - 80) / (120 + 80))
  /\ calc_eccentricity [-1; 1] = Raise ZeroDivisionError
  /\ calc_eccentricity [7] = Ok 0.
Proof.
  destruct calc_eccentricity_spec as (Hgen & Hzero & _ & Hone & _).
  split; [| split].
  - apply Hgen; [| | lra].
    + split; [right; right; now left|].
      intros x [<- | [<- | [<- | []]]]; lra.
    + split; [right; now left|].
      intros x [<- | [<- | [<- | []]]]; lra.
  - apply Hzero with (M := 1) (m := -1); [| | lra].
    + split; [right; now left|]. intros x [<- | [<- | []]]; lra.
    + split; [now left|]. intros x [<- | [<- | []]]; lra.
  - apply Hone. lra.
Defined.

(** ** Satellite.locate *)

Lemma Rabs_sqr (x : R) : Rabs x * Rabs x = x * x.
Proof. unfold Rabs. destruct (Rcase_abs x); ring. Qed.

Lemma sqrt_slope (y x : R) :
  x <> 0 -> sqrt (1 + (y / x)²) = hypot y x / Rabs x.
Proof.
  intros Hx.
  assert (Ha : 0 < Rabs x) by now apply Rabs_pos_lt.
  apply sqrt_lem_1.
  - unfold Rsqr. nra.
  - apply Rmult_le_pos; [apply hypot_nonneg|].
    apply Rlt_le, Rinv_0_lt_compat, Ha.
  - replace (hypot y x / Rabs x * (hypot y x / Rabs x))
      with (hypot y x * hypot y x / (Rabs x * Rabs x))
      by (field; lra).
    rewrite hypot_sqr, Rabs_sqr. unfold Rsqr. field. exact Hx.
Qed.

(** [atan2 y x] is the polar angle of the point [(x, y)]. *)
Lemma atan2_polar (y x : R) :
  hypot y x <> 0 ->
  y = hypot y x * sin (atan2 y x) /\ x = hypot y x * cos (atan2 y x).
Proof.
  intros Hh. unfold atan2.
  destruct (Rltb 0 x) eqn:E1.
  { apply Rltb_true in E1.
    rewrite sin_atan, cos_atan, sqrt_slope by lra.
    rewrite Rabs_pos_eq by lra. split; field; split; lra. }
  apply Rltb_false in E1.
  destruct (Rltb x 0) eqn:E2.
  { apply Rltb_true in E2.
    assert (Hs : sqrt (1 + (y / x)²) = hypot y x / - x).
    { rewrite sqrt_slope by lra. now rewrite Rabs_left by lra. }
    destruct (Rleb 0 y).
    - rewrite neg_sin, neg_cos, sin_atan, cos_atan, Hs.
      split; field; split; lra.
    - rewrite sin_minus, cos_minus, sin_PI, cos_PI, sin_atan, cos_atan, Hs.
      split; field; split; lra. }
  apply Rltb_false in E2.
  assert (x = 0) by lra. subst x.
  destruct (Rltb 0 y) eqn:E3.
  { apply Rltb_true in E3. rewrite sin_PI2, cos_PI2.
    unfold hypot. replace (y * y + 0 * 0) with (y * y) by ring.
    rewrite sqrt_square by lra. split; ring. }
  apply Rltb_false in E3.
  destruct (Rltb y 0) eqn:E4.
  { apply Rltb_true in E4. rewrite sin_neg, cos_neg, sin_PI2, cos_PI2.
    unfold hypot. replace (y * y + 0 * 0) with (- y * - y) by ring.
    rewrite sqrt_square by lra. split; ring. }
  apply Rltb_false in E4.
  assert (y = 0) by lra. subst y.
  exfalso. apply Hh. apply hypot_zero. auto.
Qed.

Lemma atan2_range (y x : R) : - PI < atan2 y x <= PI.
Proof.
  pose proof PI_RGT_0 as Hpi.
  pose proof (atan_bound (y / x)) as Hb.
  unfold atan2.
  destruct (Rltb 0 x) eqn:E1; [lra|]. apply Rltb_false in E1.
  destruct (Rltb x 0) eqn:E2.
  - apply Rltb_true in E2.
    destruct (Rleb 0 y) eqn:E3.
    + apply Rleb_true in E3.
      assert (Hq : y / x <= 0).
      { unfold Rdiv. 
        assert (/ x < 0) by now apply Rinv_lt_0_compat. nra. }
      assert (atan (y / x) <= 0).
      { destruct Hq as [Hq | Hq].
        - pose proof (atan_increasing _ _ Hq) as Hi.
          rewrite atan_0 in Hi. lra.
        - rewrite Hq, atan_0. lra. }
      lra.
    + apply Rleb_false in E3.
      assert (Hq : 0 < y / x).
      { unfold Rdiv.
        assert (/ x < 0) by now apply Rinv_lt_0_compat. nra. }
      pose proof (atan_increasing _ _ Hq) as Hi.
      rewrite atan_0 in Hi. lra.
  - destruct (Rltb 0 y); [lra|]. destruct (Rltb y 0); lra.
Qed.

(** C6, as stated, fails: for the satellite at (399, 319) and the planet at
    (400, 320) the distance is positive and [locate] sets the heading to
    -225 degrees, which is below -180. *)
Lemma locate_heading_below_minus_180 :
  0 < Satellite.distance (Satellite.locate Planet.init sat_upper_left)
  /\ Satellite.heading (Satellite.locate Planet.init sat_upper_left) = -225
  /\ ~ (-180 <= Satellite.heading (Satellite.locate Planet.init sat_upper_left)
        < 180).
Proof.
  assert (Hh : Satellite.heading (Satellite.locate Planet.init sat_upper_left)
               = -225).
  { cbn. replace (399 - 400) with (-1) by ring.
    replace (319 - 320) with (-1) by ring.
    unfold atan2. Rtest.
    replace (-1 / -1) with 1 by (field; lra).
    rewrite atan_1. field. apply PI_neq0. }
  split; [| split; [exact Hh | rewrite Hh; lra]].
  cbn. apply sqrt_lt_R0. lra.
Qed.

(** C6, amended.  [locate] stores as distance the Euclidean norm of the
    difference vector (satellite minus planet), and as heading the [atan2]
    of that difference, first component as the sine side, converted to
    degrees, minus 90.  No reduction modulo 360 takes place: the heading
    lies in (-270, 90].  When the distance is positive the heading plus 90
    is the polar angle of the difference. *)
Theorem locate_heading_and_distance (p : Planet.t) (s : Satellite.t) :
  let dist_x := Satellite.x s - Planet.x p in
  let dist_y := Satellite.y s - Planet.y p in
  let s' := Satellite.locate p s in
  Satellite.distance s' = sqrt (dist_x * dist_x + dist_y * dist_y)
  /\ Satellite.heading s' = atan2 dist_x dist_y * 180 / PI - 90
  /\ -270 < Satellite.heading s' <= 90
  /\ (0 < Satellite.distance s' ->
      let theta := (Satellite.heading s' + 90) * PI / 180 in
      dist_x = Satellite.distance s' * sin theta
      /\ dist_y = Satellite.distance s' * cos theta).
Proof.
  intros dist_x dist_y s'.
  pose proof PI_RGT_0 as Hpi.
  assert (Hh : Satellite.heading s' = atan2 dist_x dist_y * 180 / PI - 90)
    by reflexivity.
  split; [reflexivity|]. split; [exact Hh|]. split.
  - rewrite Hh. pose proof (atan2_range dist_x dist_y) as [Hlo Hhi].
    assert (Hlo' : -180 < atan2 dist_x dist_y * 180 / PI).
    { apply Rmult_lt_reg_r with PI; [lra|].
      replace (atan2 dist_x dist_y * 180 / PI * PI)
        with (atan2 dist_x dist_y * 180) by (field; lra). lra. }
    assert (Hhi' : atan2 dist_x dist_y * 180 / PI <= 180).
    { apply Rmult_le_reg_r with PI; [lra|].
      replace (atan2 dist_x dist_y * 180 / PI * PI)
        with (atan2 dist_x dist_y * 180) by (field; lra). lra. }
    lra.
  - intros Hd theta.
    assert (Et : theta = atan2 dist_x dist_y).
    { unfold theta. rewrite Hh. field. lra. }
    rewrite Et.
    change (Satellite.distance s') with (hypot dist_x dist_y) in *.
    apply atan2_polar. lra.
Qed.

Lemma locate_heading_and_distance_witness :
  Satellite.x sat_upper_left - Planet.x Planet.init
  = Satellite.distance (Satellite.locate Planet.init sat_upper_left)
    * sin ((Satellite.heading (Satellite.locate Planet.init sat_upper_left)
            + 90) * PI / 180).
Proof.
  destruct (locate_heading_and_distance Planet.init sat_upper_left)
    as (_ & _ & _ & Hpolar).
  apply Hpolar.
  cbn. apply sqrt_lt_R0. lra.
Defined.

(** ** Thrusters and the fuel gauge *)

Lemma thruster_iter_fuel (n : nat) (ddx ddy : R) (s : Satellite.t) :
  Satellite.fuel (Nat.iter n (Satellite.thruster ddx ddy) s)
  = (Satellite.fuel s - 2 * Z.of_nat n)%Z.
Proof.
  induction n as [| n IH].
  - cbn. lia.
  - rewrite Nat.iter_succ. cbn [Satellite.thruster Satellite.fuel].
    rewrite IH. lia.
Qed.

Lemma check_keys_fuel (k : Keys) (s : Satellite.t) :
  Satellite.fuel (Satellite.check_keys k s)
  = if any_arrow k then (Satellite.fuel s - 2)%Z else Satellite.fuel s.
Proof.
  unfold Satellite.check_keys, any_arrow.
  destruct (K_RIGHT k), (K_LEFT k), (K_UP k), (K_DOWN k); reflexivity.
Qed.

Lemma check_keys_velocity (k : Keys) (s : Satellite.t) :
  Satellite.dx (Satellite.check_keys k s)
  = Satellite.dx s + fst (key_thrust k)
  /\ Satellite.dy (Satellite.check_keys k s)
     = Satellite.dy s + snd (key_thrust k).
Proof.
  unfold Satellite.check_keys, key_thrust.
  destruct (K_RIGHT k), (K_LEFT k), (K_UP k), (K_DOWN k);
    cbn; split; ring.
Qed.

Lemma update_fuel (k : Keys) (s : Satellite.t) :
  Satellite.fuel (Satellite.update k s)
  = Satellite.fuel (Satellite.check_keys k s).
Proof.
  unfold Satellite.update. destruct (_ && _); reflexivity.
Qed.

Lemma update_velocity (k : Keys) (s : Satellite.t) :
  Satellite.dx (Satellite.update k s) = Satellite.dx (Satellite.check_keys k s)
  /\ Satellite.dy (Satellite.update k s)
     = Satellite.dy (Satellite.check_keys k s).
Proof.
  unfold Satellite.update. destruct (_ && _); split; reflexivity.
Qed.

Lemma adrift_separation : separation (planet adrift) (sat adrift) = 100.
Proof.
  unfold separation. cbn.
  replace (400 - 400) with 0 by ring. replace (320 - 220) with 100 by ring.
  apply hypot_axis. lra.
Qed.

Lemma adrift_tick (inp : Input) :
  tick adrift inp = Ok (tick_finish adrift inp (1, [100])).
Proof.
  rewrite tick_Ok by (rewrite adrift_separation; lra).
  rewrite recalc_off_interval by (cbn; lia). reflexivity.
Qed.

Lemma tick_pair (g : Game) (inp : Input) (r : Game * Frame) :
  tick g inp = Ok r -> tick g inp = Ok (fst r, snd r).
Proof. now destruct r. Qed.

(** C2: what the code does.  Fifty firings of the thrusters take the tank
    from 100 to exactly 0 and the fifty-first takes it to -2; and in a pass
    that starts with no fuel and an arrow key held, the fuel branch first
    sets the gauge to 0, [update] then fires the thrusters, and the frame
    shows a fuel of -2. *)
Theorem fuel_goes_below_zero :
  (forall (ddx ddy : R) (x0 y0 dx0 : Z),
     Satellite.fuel (Nat.iter 50 (Satellite.thruster ddx ddy)
                              (Satellite.init x0 y0 dx0)) = 0%Z
     /\ Satellite.fuel (Nat.iter 51 (Satellite.thruster ddx ddy)
                                 (Satellite.init x0 y0 dx0)) = (-2)%Z)
  /\ (forall (g : Game) (inp : Input) (g' : Game) (f : Frame),
        (Satellite.fuel (sat g) <= 0)%Z ->
        any_arrow (keys inp) = true ->
        tick g inp = Ok (g', f) ->
        readout_fuel f = (-2)%Z /\ Satellite.fuel (sat g') = (-2)%Z).
Proof.
  split.
  - intros ddx ddy x0 y0 dx0. rewrite !thruster_iter_fuel. cbn. lia.
  - intros g inp g' f Hfuel Hkey Ht.
    destruct (tick_inv g inp g' f Ht) as (Hd & ed & _ & E).
    unfold tick_finish in E.
    rewrite fail_conditions_fuel in E
      by now rewrite pulled_fuel, located_fuel.
    cbn [fst snd] in E. injection E as -> ->.
    cbn [readout_fuel sat].
    rewrite update_fuel, check_keys_fuel, Hkey. cbn. auto.
Qed.

Lemma fuel_goes_below_zero_witness :
  exists (g' : Game) (f : Frame),
    tick adrift hold_right = Ok (g', f) /\ readout_fuel f = (-2)%Z.
Proof.
  pose proof (tick_pair _ _ _ (adrift_tick hold_right)) as Ht.
  eexists. eexists. split; [exact Ht|].
  assert (Hfuel : (Satellite.fuel (sat adrift) <= 0)%Z) by (cbn; lia).
  assert (Hkey : any_arrow (keys hold_right) = true) by reflexivity.
  exact (proj1 (proj2 fuel_goes_below_zero adrift hold_right _ _
                      Hfuel Hkey Ht)).
Defined.

Lemma tick_finish_velocity (g : Game) (inp : Input) (ed : R * list R) :
  let s3 := fst (fail_conditions
                   (pulled (snd (poll_events g inp)) (located g inp))) in
  Satellite.dx (sat (fst (tick_finish g inp ed)))
  = Satellite.dx s3 + fst (key_thrust (keys inp))
  /\ Satellite.dy (sat (fst (tick_finish g inp ed)))
     = Satellite.dy s3 + snd (key_thrust (keys inp)).
Proof.
  intros s3. unfold tick_finish. cbn [fst sat]. fold s3.
  destruct (update_velocity (keys inp) s3) as [-> ->].
  apply check_keys_velocity.
Qed.

(** C3, as stated, fails: starting a pass with an empty tank, holding the
    right arrow leaves the satellite with [dx = 2.05], releasing it with
    [dx = 2]: the key has contributed 0.05. *)
Lemma empty_tank_still_thrusts :
  exists (g1 g2 : Game) (f1 f2 : Frame),
    (Satellite.fuel (sat adrift) <= 0)%Z
    /\ tick adrift hold_right = Ok (g1, f1)
    /\ tick adrift (release hold_right) = Ok (g2, f2)
    /\ Satellite.dx (sat g1) = 2 + 5 / 100
    /\ Satellite.dx (sat g2) = 2
    /\ Satellite.dx (sat g1) <> Satellite.dx (sat g2).
Proof.
  pose proof (tick_pair _ _ _ (adrift_tick hold_right)) as H1.
  pose proof (tick_pair _ _ _ (adrift_tick (release hold_right))) as H2.
  assert (E1 : Satellite.dx (sat (fst (tick_finish adrift hold_right
                                                   (1, [100]))))
               = 2 + 5 / 100).
  { rewrite (proj1 (tick_finish_velocity adrift hold_right _)).
    rewrite fail_conditions_fuel by (cbn; lia). reflexivity. }
  assert (E2 : Satellite.dx (sat (fst (tick_finish adrift
                                         (release hold_right) (1, [100]))))
               = 2).
  { rewrite (proj1 (tick_finish_velocity adrift (release hold_right) _)).
    rewrite fail_conditions_fuel by (cbn; lia). cbn. ring. }
  eexists. eexists. eexists. eexists.
  split; [cbn; lia|].
  split; [exact H1|]. split; [exact H2|].
  split; [exact E1|]. split; [exact E2|].
  rewrite E1, E2. lra.
Qed.

(** C3, amended.  [check_keys] does not look at the fuel.  In a pass that
    starts with the tank empty the fuel branch sets [fuel = 0] and
    [dx = 2], and a held arrow key then still adds its thrust: compared
    with the same pass with the keys released, the velocity differs by the
    key's 0.05 along its axis. *)
Theorem thrust_ignores_fuel
        (g : Game) (inp : Input) (g' : Game) (f : Frame) :
  (Satellite.fuel (sat g) <= 0)%Z ->
  tick g inp = Ok (g', f) ->
  exists (g0 : Game) (f0 : Frame),
    tick g (release inp) = Ok (g0, f0)
    /\ Satellite.dx (sat g0) = 2
    /\ Satellite.fuel (sat g0) = 0%Z
    /\ Satellite.dx (sat g')
       = Satellite.dx (sat g0) + fst (key_thrust (keys inp))
    /\ Satellite.dy (sat g')
       = Satellite.dy (sat g0) + snd (key_thrust (keys inp)).
Proof.
  intros Hfuel Ht.
  destruct (tick_inv g inp g' f Ht) as (Hd & ed & Hed & E).
  assert (Eg : g' = fst (tick_finish g inp ed)) by now rewrite <- E.
  assert (H0 : tick g (release inp) = Ok (tick_finish g (release inp) ed)).
  { rewrite tick_Ok by exact Hd. now rewrite Hed. }
  exists (fst (tick_finish g (release inp) ed)),
         (snd (tick_finish g (release inp) ed)).
  split; [now apply tick_pair|].
  destruct (tick_finish_velocity g inp ed) as [Hx Hy].
  destruct (tick_finish_velocity g (release inp) ed) as [Hx0 Hy0].
  assert (Hfc : fail_conditions
                  (pulled (snd (poll_events g inp)) (located g inp))
                = (fuel_depleted
                     (pulled (snd (poll_events g inp)) (located g inp)),
                   [Fuel_depleted])).
  { apply fail_conditions_fuel. now rewrite pulled_fuel, located_fuel. }
  change (poll_events g (release inp)) with (poll_events g inp) in *.
  change (located g (release inp)) with (located g inp) in *.
  rewrite Hfc in Hx, Hy, Hx0, Hy0. cbn [fst snd] in Hx, Hy, Hx0, Hy0.
  change (keys (release inp)) with no_keys in *.
  cbn [key_thrust no_keys K_RIGHT K_LEFT K_UP K_DOWN fst snd
       fuel_depleted Satellite.dx Satellite.dy] in Hx, Hy, Hx0, Hy0.
  rewrite Eg.
  split; [rewrite Hx0; ring|].
  split.
  { unfold tick_finish. cbn [fst sat].
    change (poll_events g (release inp)) with (poll_events g inp).
    change (located g (release inp)) with (located g inp).
    rewrite Hfc, update_fuel, check_keys_fuel. reflexivity. }
  split; [rewrite Hx, Hx0; ring|].
  rewrite Hy, Hy0; ring.
Qed.

Lemma thrust_ignores_fuel_witness :
  exists (g' g0 : Game) (f f0 : Frame),
    tick adrift hold_right = Ok (g', f)
    /\ tick adrift (release hold_right) = Ok (g0, f0)
    /\ Satellite.dx (sat g0) = 2
    /\ Satellite.dx (sat g') = Satellite.dx (sat g0) + 5 / 100.
Proof.
  pose proof (tick_pair _ _ _ (adrift_tick hold_right)) as Ht.
  assert (Hfuel : (Satellite.fuel (sat adrift) <= 0)%Z) by (cbn; lia).
  destruct (thrust_ignores_fuel adrift hold_right _ _ Hfuel Ht)
    as (g0 & f0 & H0 & H2 & _ & Hx & _).
  eexists. exists g0. eexists. exists f0.
  split; [exact Ht|]. split; [exact H0|]. split; [exact H2 | exact Hx].
Defined.

(** ** The orbit sample window *)

Lemma hypot_lower_bound (a b c : R) : 0 <= c <= b -> c <= hypot a b.
Proof.
  intros [Hc Hb].
  pose proof (hypot_nonneg a b) as Hn.
  pose proof (hypot_sqr a b) as Hs.
  set (h := hypot a b) in *. clearbody h.
  destruct (Rle_lt_dec c h) as [Hge | Hlt]; [exact Hge|].
  exfalso.
  assert (H1 : h * h < c * c) by (apply Rmult_le_0_lt_compat; lra).
  assert (H2 : c * c <= b * b) by (apply Rmult_le_compat; lra).
  assert (H3 : 0 <= a * a) by nra.
  lra.
Qed.

Lemma init_separation (x0 y0 dx0 : Z) :
  Satellite.valid_draw x0 y0 dx0 ->
  141 <= separation Planet.init (Satellite.init x0 y0 dx0).
Proof.
  intros (_ & [Hy1 Hy2] & _). unfold separation.
  cbn [Planet.x Planet.y Planet.init Satellite.x Satellite.y Satellite.init].
  assert (Hy : IZR y0 <= 179) by (apply IZR_le; lia).
  apply hypot_lower_bound. lra.
Qed.

(** With a first sample of 0 and the others positive, the greatest sample
    over the least is all that [calc_eccentricity] sees: it returns 1. *)
Lemma calc_eccentricity_zero_sample (d : R) (l : list R) :
  (forall x : R, In x (d :: l) -> 0 < x) ->
  calc_eccentricity (0 :: d :: l) = Ok 1.
Proof.
  intros Hpos.
  destruct (fold_left_Rmax_is_max (d :: l) 0) as [Hin Hub].
  set (M := fold_left Rmax (d :: l) 0) in *.
  assert (HM : 0 < M).
  { apply Rlt_le_trans with d; [apply Hpos; now left|].
    apply Hub. right. now left. }
  rewrite (calc_eccentricity_Ok (0 :: d :: l) M 0).
  - f_equal. field. lra.
  - split; assumption.
  - split; [now left|]. intros x [<- | Hx]; [lra|].
    apply Rlt_le, Hpos, Hx.
  - lra.
Qed.

Lemma main_loop_single (g : Game) (inp : Input) (g' : Game) (f : Frame) :
  running g = true ->
  tick g inp = Ok (g', f) ->
  main_loop [inp] g = Ok (g', [f]).
Proof.
  intros Hrun Ht. cbn [main_loop]. rewrite Hrun, Ht. reflexivity.
Qed.

(** C9: what the code does.  A pass appends [sat.distance] before [locate]
    runs, so the sample it adds is the distance stored by the pass before
    (off a recalculation pass the window after it is the window before it
    plus that stored value).  In the first pass the stored value is the 0
    of [Satellite.__init__]: for every initial draw the first pass of the
    loop returns with the window [[0]], while the distance it located is at
    least 141. *)
Theorem sample_is_taken_before_locate :
  (forall (g : Game) (inp : Input) (g' : Game) (f : Frame),
     ((tick_count g + 1) mod 150 <> 0)%Z ->
     tick g inp = Ok (g', f) ->
     dist_list g' = dist_list g ++ [Satellite.distance (sat g)]
     /\ Satellite.distance (sat g') = separation (planet g) (sat g))
  /\ (forall (x0 y0 dx0 : Z) (inp : Input),
        Satellite.valid_draw x0 y0 dx0 ->
        exists (g' : Game) (f : Frame),
          tick (main_init x0 y0 dx0) inp = Ok (g', f)
          /\ main_loop [inp] (main_init x0 y0 dx0) = Ok (g', [f])
          /\ dist_list g' = [0]
          /\ 141 <= Satellite.distance (sat g')).
Proof.
  split.
  - intros g inp g' f Hoff Ht.
    destruct (tick_inv g inp g' f Ht) as (Hd & ed & Hed & E).
    rewrite recalc_off_interval in Hed by exact Hoff.
    injection Hed as <-.
    assert (Eg : g' = fst (tick_finish g inp
                    (eccentricity g,
                     dist_list g ++ [Satellite.distance (sat g)])))
      by now rewrite <- E.
    split.
    + rewrite Eg. reflexivity.
    + rewrite Eg. apply tick_finish_distance.
  - intros x0 y0 dx0 inp Hdraw.
    pose proof (init_separation x0 y0 dx0 Hdraw) as Hsep.
    assert (Ht : tick (main_init x0 y0 dx0) inp
                 = Ok (tick_finish (main_init x0 y0 dx0) inp (1, [0]))).
    { rewrite tick_Ok by (cbn [main_init planet sat]; lra).
      rewrite recalc_off_interval by (cbn; lia). reflexivity. }
    exists (fst (tick_finish (main_init x0 y0 dx0) inp (1, [0]))),
           (snd (tick_finish (main_init x0 y0 dx0) inp (1, [0]))).
    split; [now apply tick_pair|].
    split; [apply main_loop_single; [reflexivity | now apply tick_pair]|].
    split; [reflexivity|].
    rewrite tick_finish_distance. exact Hsep.
Qed.

Lemma sample_is_taken_before_locate_witness :
  exists (g' : Game) (f : Frame),
    tick (main_init 400%Z 100%Z 3%Z) idle = Ok (g', f)
    /\ main_loop [idle] (main_init 400%Z 100%Z 3%Z) = Ok (g', [f])
    /\ dist_list g' = [0]
    /\ 141 <= Satellite.distance (sat g').
Proof.
  apply (proj2 sample_is_taken_before_locate 400%Z 100%Z 3%Z idle).
  unfold Satellite.valid_draw. lia.
Defined.

(** * Further properties of the code *)

(** ** Satellite.check_keys and Satellite.thruster *)

(** X1.  However many arrow keys are held, [check_keys] fires the thrusters
    at most once: the fuel drops by 2 exactly when some arrow is held, and
    the velocity changes along one axis only, chosen in the order right,
    left, up, down.  Right and left held together do not cancel. *)
Theorem check_keys_fires_once (k : Keys) (s : Satellite.t) :
  Satellite.fuel (Satellite.check_keys k s)
  = (if any_arrow k then Satellite.fuel s - 2 else Satellite.fuel s)%Z
  /\ (K_RIGHT k = true ->
      Satellite.check_keys k s = Satellite.thruster (5 / 100) 0 s)
  /\ (K_RIGHT k = false -> K_LEFT k = true ->
      Satellite.check_keys k s = Satellite.thruster (- (5 / 100)) 0 s)
  /\ (K_RIGHT k = false -> K_LEFT k = false -> K_UP k = true ->
      Satellite.check_keys k s = Satellite.thruster 0 (- (5 / 100)) s)
  /\ (K_RIGHT k = false -> K_LEFT k = false -> K_UP k = false ->
      K_DOWN k = true ->
      Satellite.check_keys k s = Satellite.thruster 0 (5 / 100) s)
  /\ (any_arrow k = false -> Satellite.check_keys k s = s).
Proof.
  split; [apply check_keys_fuel|].
  unfold Satellite.check_keys, any_arrow.
  repeat split; intros; 
    destruct (K_RIGHT k), (K_LEFT k), (K_UP k), (K_DOWN k);
    try discriminate; reflexivity.
Qed.

Lemma check_keys_fires_once_witness :
  Satellite.check_keys (mkKeys true true false true) (Satellite.init 400 100 3)
  = Satellite.thruster (5 / 100) 0 (Satellite.init 400 100 3).
Proof.
  destruct (check_keys_fires_once (mkKeys true true false true)
              (Satellite.init 400 100 3)) as (_ & Hright & _).
  apply Hright. reflexivity.
Defined.

Lemma thruster_iter_velocity (n : nat) (ddx ddy : R) (s : Satellite.t) :
  Satellite.dx (Nat.iter n (Satellite.thruster ddx ddy) s)
  = Satellite.dx s + INR n * ddx
  /\ Satellite.dy (Nat.iter n (Satellite.thruster ddx ddy) s)
     = Satellite.dy s + INR n * ddy.
Proof.
  induction n as [| n [IHx IHy]].
  - cbn. split; ring.
  - rewrite Nat.iter_succ, S_INR.
    cbn [Satellite.thruster Satellite.dx Satellite.dy].
    rewrite IHx, IHy. split; ring.
Qed.

Lemma thruster_iter_frame (n : nat) (ddx ddy : R) (s : Satellite.t) :
  Satellite.x (Nat.iter n (Satellite.thruster ddx ddy) s) = Satellite.x s
  /\ Satellite.y (Nat.iter n (Satellite.thruster ddx ddy) s) = Satellite.y s
  /\ Satellite.mass (Nat.iter n (Satellite.thruster ddx ddy) s)
     = Satellite.mass s
  /\ Satellite.distance (Nat.iter n (Satellite.thruster ddx ddy) s)
     = Satellite.distance s
  /\ Satellite.heading (Nat.iter n (Satellite.thruster ddx ddy) s)
     = Satellite.heading s.
Proof.
  induction n as [| n IH].
  - cbn. auto.
  - rewrite Nat.iter_succ.
    cbn [Satellite.thruster Satellite.x Satellite.y Satellite.mass
         Satellite.distance Satellite.heading].
    exact IH.
Qed.

(** X2.  Firing the thrusters [n] times with the same increments adds [n]
    times the increments to the velocity and takes [2 * n] from the fuel,
    leaving position, mass, distance and heading alone; and a burn followed
    by the opposite burn restores the velocity but has used 4 units of
    fuel: fuel is never given back. *)
Theorem thruster_burns_add_up (n : nat) (ddx ddy : R) (s : Satellite.t) :
  let s' := Nat.iter n (Satellite.thruster ddx ddy) s in
  Satellite.dx s' = Satellite.dx s + INR n * ddx
  /\ Satellite.dy s' = Satellite.dy s + INR n * ddy
  /\ Satellite.fuel s' = (Satellite.fuel s - 2 * Z.of_nat n)%Z
  /\ Satellite.x s' = Satellite.x s
  /\ Satellite.y s' = Satellite.y s
  /\ Satellite.dx (Satellite.thruster (- ddx) (- ddy)
                     (Satellite.thruster ddx ddy s)) = Satellite.dx s
  /\ Satellite.dy (Satellite.thruster (- ddx) (- ddy)
                     (Satellite.thruster ddx ddy s)) = Satellite.dy s
  /\ Satellite.fuel (Satellite.thruster (- ddx) (- ddy)
                       (Satellite.thruster ddx ddy s))
     = (Satellite.fuel s - 4)%Z.
Proof.
  intros s'.
  destruct (thruster_iter_velocity n ddx ddy s) as [Hx Hy].
  destruct (thruster_iter_frame n ddx ddy s) as (Hpx & Hpy & _).
  repeat split; try assumption.
  - apply thruster_iter_fuel.
  - cbn. ring.
  - cbn. ring.
  - cbn. lia.
Qed.

(** ** Satellite.locate: headings *)

Lemma atan2_on_axes :
  (forall x : R, 0 < x -> atan2 0 x = 0)
  /\ (forall x : R, x < 0 -> atan2 0 x = PI)
  /\ (forall y : R, 0 < y -> atan2 y 0 = PI / 2)
  /\ (forall y : R, y < 0 -> atan2 y 0 = - (PI / 2))
  /\ atan2 0 0 = 0.
Proof.
  repeat split; intros; unfold atan2; Rtest; try reflexivity.
  - unfold Rdiv. rewrite Rmult_0_l. apply atan_0.
  - unfold Rdiv. rewrite Rmult_0_l, atan_0. ring.
Qed.

Lemma degrees_of_PI (c : R) : c * PI * 180 / PI - 90 = c * 180 - 90.
Proof. field. apply PI_neq0. Qed.

(** X3.  The four headings on the axes through the planet (screen
    coordinates, y growing downwards): a satellite straight above the
    planet gets heading 90, straight below -90, straight to the right 0 and
    straight to the left -180; on the planet's centre itself [locate] gives
    heading -90 and distance 0. *)
Theorem locate_cardinal_headings (p : Planet.t) (s : Satellite.t) :
  (Satellite.x s = Planet.x p -> Satellite.y s < Planet.y p ->
   Satellite.heading (Satellite.locate p s) = 90)
  /\ (Satellite.x s = Planet.x p -> Planet.y p < Satellite.y s ->
      Satellite.heading (Satellite.locate p s) = -90)
  /\ (Satellite.y s = Planet.y p -> Planet.x p < Satellite.x s ->
      Satellite.heading (Satellite.locate p s) = 0)
  /\ (Satellite.y s = Planet.y p -> Satellite.x s < Planet.x p ->
      Satellite.heading (Satellite.locate p s) = -180)
  /\ (Satellite.x s = Planet.x p -> Satellite.y s = Planet.y p ->
      Satellite.heading (Satellite.locate p s) = -90
      /\ Satellite.distance (Satellite.locate p s) = 0).
Proof.
  destruct atan2_on_axes as (Hpos & Hneg & Hup & Hdown & Hzero).
  pose proof PI_neq0 as Hpi.
  unfold Satellite.locate. cbn [Satellite.heading Satellite.distance].
  split; [| split; [| split; [| split]]].
  - intros Hx Hy. rewrite Hx, Rminus_diag, Hneg by lra. field. exact Hpi.
  - intros Hx Hy. rewrite Hx, Rminus_diag, Hpos by lra. field. exact Hpi.
  - intros Hy Hx. rewrite Hy, Rminus_diag, Hup by lra. field. exact Hpi.
  - intros Hy Hx. rewrite Hy, Rminus_diag, Hdown by lra. field. exact Hpi.
  - intros Hx Hy. rewrite Hx, Hy, !Rminus_diag, Hzero. split.
    + field. exact Hpi.
    + apply hypot_zero. auto.
Qed.

Lemma locate_cardinal_headings_witness :
  Satellite.heading (Satellite.locate Planet.init (Satellite.init 400 100 3))
  = 90.
Proof.
  destruct (locate_cardinal_headings Planet.init (Satellite.init 400 100 3))
    as (Habove & _).
  apply Habove; cbn; lra.
Defined.

Lemma atan2_scale (k y x : R) : 0 < k -> atan2 (k * y) (k * x) = atan2 y x.
Proof.
  intros Hk. unfold atan2.
  assert (Hq : x <> 0 -> k * y / (k * x) = y / x)
    by (intros Hx; field; split; lra).
  destruct (Rlt_dec 0 x) as [Hx | Hx].
  { assert (0 < k * x) by now apply Rmult_lt_0_compat.
    Rtest. now rewrite Hq by lra. }
  destruct (Rlt_dec x 0) as [Hx' | Hx'].
  { assert (k * x < 0) by nra.
    destruct (Rle_dec 0 y) as [Hy | Hy].
    - assert (0 <= k * y) by nra. Rtest. now rewrite Hq by lra.
    - assert (k * y < 0) by nra. Rtest. now rewrite Hq by lra. }
  assert (x = 0) by lra. subst x. rewrite Rmult_0_r. Rtest.
  destruct (Rlt_dec 0 y) as [Hy | Hy].
  { assert (0 < k * y) by now apply Rmult_lt_0_compat. Rtest. reflexivity. }
  destruct (Rlt_dec y 0) as [Hy' | Hy'].
  { assert (k * y < 0) by nra. Rtest. reflexivity. }
  assert (y = 0) by lra. subst y. rewrite Rmult_0_r. Rtest. reflexivity.
Qed.

Lemma hypot_scale_l (k a b : R) :
  0 <= k -> hypot (k * a) (k * b) = k * hypot a b.
Proof.
  intros Hk. rewrite (Rmult_comm k a), (Rmult_comm k b), hypot_scale.
  rewrite Rabs_pos_eq by exact Hk. ring.
Qed.

(** X4.  The heading depends on the direction to the planet only, the
    distance on the length only: moving the satellite along the ray from
    the planet through it, to [k] times as far ([k > 0]), keeps the heading
    and multiplies the distance by [k]. *)
Theorem locate_heading_ignores_range
        (p : Planet.t) (s1 s2 : Satellite.t) (k : R) :
  0 < k ->
  Satellite.x s2 - Planet.x p = k * (Satellite.x s1 - Planet.x p) ->
  Satellite.y s2 - Planet.y p = k * (Satellite.y s1 - Planet.y p) ->
  Satellite.heading (Satellite.locate p s2)
  = Satellite.heading (Satellite.locate p s1)
  /\ Satellite.distance (Satellite.locate p s2)
     = k * Satellite.distance (Satellite.locate p s1).
Proof.
  intros Hk Hx Hy. unfold Satellite.locate.
  cbn [Satellite.heading Satellite.distance].
  rewrite Hx, Hy. split.
  - now rewrite atan2_scale.
  - apply hypot_scale_l. lra.
Qed.

Lemma locate_heading_ignores_range_witness :
  Satellite.heading
    (Satellite.locate Planet.init
       (Satellite.mk image_sat 398 318 3 0 0 100 1 0))
  = Satellite.heading (Satellite.locate Planet.init sat_upper_left).
Proof.
  apply (locate_heading_ignores_range Planet.init sat_upper_left
           (Satellite.mk image_sat 398 318 3 0 0 100 1 0) 2).
  - lra.
  - cbn. lra.
  - cbn. lra.
Defined.

(** ** calc_eccentricity: range and invariances *)

Lemma calc_eccentricity_Raise (l : list R) (M m : R) :
  is_max M l -> is_min m l -> M + m = 0 ->
  calc_eccentricity l = Raise ZeroDivisionError.
Proof.
  intros HM Hm Hs. unfold calc_eccentricity.
  rewrite (py_max_Ok l M HM), (py_min_Ok l m Hm). cbn [bind].
  rewrite Hs. apply truediv_zero.
Qed.

Lemma extremes_exist (l : list R) :
  l <> [] -> exists M m : R, is_max M l /\ is_min m l.
Proof.
  destruct l as [| a l]; [congruence|]. intros _.
  exists (fold_left Rmax l a), (fold_left Rmin l a).
  split; [apply fold_left_Rmax_is_max | apply fold_left_Rmin_is_min].
Qed.

(** X5.  On a window of non-negative samples that are not all zero,
    [calc_eccentricity] returns a value between 0 and 1; the value is 0
    exactly when all the samples are equal (a circle) and 1 exactly when
    some sample is 0. *)
Theorem calc_eccentricity_range (l : list R) :
  (forall x : R, In x l -> 0 <= x) ->
  (exists x : R, In x l /\ 0 < x) ->
  exists e : R,
    calc_eccentricity l = Ok e
    /\ 0 <= e <= 1
    /\ (e = 0 <-> forall x y : R, In x l -> In y l -> x = y)
    /\ (e = 1 <-> In 0 l).
Proof.
  intros Hnn (x0 & Hx0 & Hpos).
  destruct (extremes_exist l) as (M & m & HM & Hm).
  { intros ->. destruct Hx0. }
  destruct HM as [HMin HMub], Hm as [Hmin Hmlb].
  assert (Hm0 : 0 <= m) by now apply Hnn.
  assert (HM0 : 0 < M) by (apply Rlt_le_trans with x0; auto).
  assert (HmM : m <= M) by now apply HMub.
  exists ((M - m) / (M + m)). split.
  { apply calc_eccentricity_Ok; [split; assumption | split; assumption | lra]. }
  assert (Hs : 0 < M + m) by lra.
  assert (Hi : 0 < / (M + m)) by now apply Rinv_0_lt_compat.
  assert (E1 : (M - m) / (M + m) = 1 - 2 * m / (M + m)) by (field; lra).
  split; [| split].
  - split.
    + unfold Rdiv. apply Rmult_le_pos; lra.
    + rewrite E1. unfold Rdiv.
      assert (0 <= 2 * m * / (M + m)) by (apply Rmult_le_pos; lra). lra.
  - split.
    + intros He x y Hx Hy.
      assert (EM : M = m).
      { unfold Rdiv in He. apply Rmult_integral in He.
        destruct He as [He | He]; lra. }
      pose proof (HMub x Hx). pose proof (Hmlb x Hx).
      pose proof (HMub y Hy). pose proof (Hmlb y Hy). lra.
    + intros Heq. rewrite (Heq M m HMin Hmin).
      unfold Rdiv. rewrite Rminus_diag. ring.
  - split.
    + intros He. rewrite E1 in He.
      assert (Hz : 2 * m / (M + m) = 0) by lra.
      unfold Rdiv in Hz. apply Rmult_integral in Hz.
      destruct Hz as [Hz | Hz]; [| lra].
      replace 0 with m by lra. exact Hmin.
    + intros H0. pose proof (Hmlb 0 H0).
      assert (m = 0) by lra. subst m. field. lra.
Qed.

Lemma calc_eccentricity_range_witness :
  exists e : R, calc_eccentricity [0; 100; 120] = Ok e /\ e = 1.
Proof.
  destruct (calc_eccentricity_range [0; 100; 120]) as (e & He & _ & _ & H1).
  - intros x [<- | [<- | [<- | []]]]; lra.
  - exists 100. split; [right; now left | lra].
  - exists e. split; [exact He|]. apply H1. now left.
Defined.

Lemma is_max_map_scale (k M : R) (l : list R) :
  0 < k -> is_max M l -> is_max (k * M) (map (Rmult k) l).
Proof.
  intros Hk [Hin Hub]. split.
  - now apply in_map.
  - intros x Hx. apply in_map_iff in Hx. destruct Hx as (x' & <- & Hx').
    apply Rmult_le_compat_l; [lra | now apply Hub].
Qed.

Lemma is_min_map_scale (k m : R) (l : list R) :
  0 < k -> is_min m l -> is_min (k * m) (map (Rmult k) l).
Proof.
  intros Hk [Hin Hlb]. split.
  - now apply in_map.
  - intros x Hx. apply in_map_iff in Hx. destruct Hx as (x' & <- & Hx').
    apply Rmult_le_compat_l; [lra | now apply Hlb].
Qed.

Lemma calc_eccentricity_same_extremes (l l' : list R) (M m : R) :
  is_max M l -> is_min m l -> is_max M l' -> is_min m l' ->
  calc_eccentricity l' = calc_eccentricity l.
Proof.
  intros HM Hm HM' Hm'.
  destruct (Req_dec_T (M + m) 0) as [E | E].
  - rewrite (calc_eccentricity_Raise l M m) by assumption.
    now rewrite (calc_eccentricity_Raise l' M m).
  - now rewrite (calc_eccentricity_Ok l M m), (calc_eccentricity_Ok l' M m).
Qed.

(** X6.  The estimate depends neither on the order of the samples nor on
    the unit of length: reordering the window, or multiplying every sample
    by the same positive factor, gives the same result (the same value, or
    the same exception). *)
Theorem calc_eccentricity_invariant :
  (forall l l' : list R,
     Permutation l l' -> calc_eccentricity l' = calc_eccentricity l)
  /\ (forall (k : R) (l : list R),
        0 < k -> calc_eccentricity (map (Rmult k) l) = calc_eccentricity l).
Proof.
  split.
  - intros l l' Hp. destruct l as [| a l].
    + apply Permutation_nil in Hp. now subst l'.
    + destruct (extremes_exist (a :: l)) as (M & m & HM & Hm);
        [discriminate|].
      apply (calc_eccentricity_same_extremes (a :: l) l' M m HM Hm).
      * destruct HM as [Hin Hub]. split.
        -- now apply (Permutation_in _ Hp).
        -- intros x Hx. apply Hub.
           now apply (Permutation_in _ (Permutation_sym Hp)).
      * destruct Hm as [Hin Hlb]. split.
        -- now apply (Permutation_in _ Hp).
        -- intros x Hx. apply Hlb.
           now apply (Permutation_in _ (Permutation_sym Hp)).
  - intros k l Hk. destruct l as [| a l]; [reflexivity|].
    destruct (extremes_exist (a :: l)) as (M & m & HM & Hm); [discriminate|].
    pose proof (is_max_map_scale k M _ Hk HM) as HM'.
    pose proof (is_min_map_scale k m _ Hk Hm) as Hm'.
    destruct (Req_dec_T (M + m) 0) as [E | E].
    + rewrite (calc_eccentricity_Raise (a :: l) M m) by assumption.
      apply (calc_eccentricity_Raise _ (k * M) (k * m)); try assumption.
      rewrite <- Rmult_plus_distr_l, E. ring.
    + rewrite (calc_eccentricity_Ok (a :: l) M m) by assumption.
      assert (E' : k * M + k * m <> 0).
      { rewrite <- Rmult_plus_distr_l. apply Rmult_integral_contrapositive.
        split; [lra | exact E]. }
      rewrite (calc_eccentricity_Ok _ (k * M) (k * m)) by assumption.
      f_equal. field. split; assumption.
Qed.

Lemma calc_eccentricity_invariant_witness :
  calc_eccentricity [120; 69] = calc_eccentricity [69; 120]
  /\ calc_eccentricity (map (Rmult 2) [69; 120]) = calc_eccentricity [69; 120].
Proof.
  destruct calc_eccentricity_invariant as [Hperm Hscale].
  split.
  - apply Hperm. apply perm_swap.
  - apply Hscale. lra.
Defined.

(** ** The loop: exceptions, the sample window, the pass counter *)

Lemma main_loop_preserves (P : Game -> Prop) (Q : Frame -> Prop) :
  (forall (g : Game) (inp : Input) (g' : Game) (f : Frame),
     P g -> tick g inp = Ok (g', f) -> P g' /\ Q f) ->
  forall (inputs : list Input) (g g' : Game) (fs : list Frame),
    P g -> main_loop inputs g = Ok (g', fs) -> P g' /\ Forall Q fs.
Proof.
  intros Hstep inputs.
  induction inputs as [| inp rest IH]; intros g g' fs HP Hrun;
    cbn [main_loop] in Hrun.
  - injection Hrun as <- <-. auto.
  - destruct (running g).
    + destruct (tick g inp) as [[g1 f1] |] eqn:Ht; [| discriminate].
      cbn [bind fst snd] in Hrun.
      destruct (main_loop rest g1) as [[g2 fs2] |] eqn:Hrest;
        [| discriminate].
      cbn [bind fst snd] in Hrun. injection Hrun as <- <-.
      destruct (Hstep g inp g1 f1 HP Ht) as [HP1 HQ1].
      destruct (IH g1 g2 fs2 HP1 Hrest) as [HP2 HQ2].
      split; [exact HP2 | now constructor].
    + injection Hrun as <- <-. auto.
Qed.

Lemma calc_eccentricity_nonempty (l : list R) :
  l <> [] ->
  calc_eccentricity l = Raise ZeroDivisionError
  \/ exists e : R, calc_eccentricity l = Ok e.
Proof.
  intros Hl. destruct (extremes_exist l Hl) as (M & m & HM & Hm).
  destruct (Req_dec_T (M + m) 0) as [E | E].
  - left. now apply (calc_eccentricity_Raise l M m).
  - right. eexists. now apply (calc_eccentricity_Ok l M m).
Qed.

Lemma calc_eccentricity_sound_samples (l : list R) (d : R) :
  (forall x : R, In x l -> 0 <= x) -> 0 < d ->
  exists e : R, calc_eccentricity (l ++ [d]) = Ok e.
Proof.
  intros Hl Hd.
  destruct (extremes_exist (l ++ [d])) as (M & m & HM & Hm).
  { now destruct l. }
  exists ((M - m) / (M + m)). apply calc_eccentricity_Ok; try assumption.
  assert (Hall : forall x : R, In x (l ++ [d]) -> 0 <= x).
  { intros x Hx. apply in_app_or in Hx.
    destruct Hx as [Hx | [<- | []]]; [now apply Hl | lra]. }
  assert (0 <= m) by (apply Hall; apply Hm).
  assert (d <= M) by (apply HM; apply in_or_app; right; now left).
  lra.
Qed.

Lemma recalc_cases (count : Z) (ecc : R) (samples : list R) :
  ((count mod 150 <> 0)%Z
   /\ recalc_eccentricity count ecc samples = Ok (ecc, samples))
  \/ ((count mod 150 = 0)%Z
      /\ recalc_eccentricity count ecc samples
         = (e <- calc_eccentricity samples ;; Ok (e, []))).
Proof.
  destruct (Z.eq_dec (count mod 150) 0) as [E | E].
  - right. split; [exact E|]. unfold recalc_eccentricity.
    change (eccentricty_calc_interval * fps)%Z with 150%Z.
    rewrite E. reflexivity.
  - left. split; [exact E | now apply recalc_off_interval].
Qed.

Lemma tick_returns (g : Game) (inp : Input) :
  separation (planet g) (sat g) <> 0 ->
  ((tick_count g + 1) mod 150 <> 0)%Z \/ samples_sound g ->
  exists (g' : Game) (f : Frame), tick g inp = Ok (g', f).
Proof.
  intros Hd Hcase. rewrite tick_Ok by exact Hd.
  destruct (recalc_cases (tick_count g + 1) (eccentricity g)
              (dist_list g ++ [Satellite.distance (sat g)]))
    as [[Hoff Hr] | [Hon Hr]]; rewrite Hr.
  - cbn [bind]. destruct (tick_finish _ _ _) as [g' f]. eauto.
  - destruct Hcase as [Hoff | [Hl Hs]]; [contradiction|].
    destruct (calc_eccentricity_sound_samples _ _ Hl Hs) as [e He].
    rewrite He. cbn [bind]. destruct (tick_finish _ _ _) as [g' f]. eauto.
Qed.

(** X7.  A pass never raises [ValueError].  [calc_eccentricity] raises it
    on an empty list, but the list a pass hands to it always ends with the
    sample appended at the top of that same pass, whatever the window held
    before. *)
Theorem tick_never_raises_ValueError :
  calc_eccentricity [] = Raise ValueError
  /\ (forall (l : list R) (d : R),
        calc_eccentricity (l ++ [d]) <> Raise ValueError)
  /\ (forall (g : Game) (inp : Input), tick g inp <> Raise ValueError).
Proof.
  assert (Hcalc : forall (l : list R) (d : R),
             calc_eccentricity (l ++ [d]) <> Raise ValueError).
  { intros l d.
    destruct (calc_eccentricity_nonempty (l ++ [d])) as [Hc | [e Hc]].
    - now destruct l.
    - rewrite Hc. discriminate.
    - rewrite Hc. discriminate. }
  split; [reflexivity|]. split; [exact Hcalc|].
  intros g inp Ht.
  destruct (Req_dec_T (separation (planet g) (sat g)) 0) as [E | E].
  - rewrite tick_Raise in Ht by exact E. discriminate.
  - rewrite tick_Ok in Ht by exact E.
    destruct (recalc_cases (tick_count g + 1) (eccentricity g)
                (dist_list g ++ [Satellite.distance (sat g)]))
      as [[_ Hr] | [_ Hr]]; rewrite Hr in Ht.
    + discriminate.
    + pose proof (Hcalc (dist_list g) (Satellite.distance (sat g))) as Hne.
      destruct (calc_eccentricity _) as [e | e].
      * discriminate.
      * cbn [bind] in Ht. congruence.
Qed.

Lemma tick_never_raises_ValueError_witness :
  tick (mkGame Planet.init sat_at_centre [] 1 149 false true) idle
  <> Raise ValueError
  /\ calc_eccentricity ([] ++ [0]) <> Raise ValueError.
Proof.
  destruct tick_never_raises_ValueError as (_ & Hcalc & Hpass).
  split; [apply Hpass | apply Hcalc].
Defined.

Lemma tick_counts (g : Game) (inp : Input) (g' : Game) (f : Frame) :
  tick g inp = Ok (g', f) -> tick_count g' = (tick_count g + 1)%Z.
Proof.
  intros Ht. destruct (tick_inv g inp g' f Ht) as (_ & ed & _ & E).
  assert (Eg : g' = fst (tick_finish g inp ed)) by now rewrite <- E.
  now rewrite Eg.
Qed.

Lemma tick_window (g : Game) (inp : Input) (g' : Game) (f : Frame) :
  tick g inp = Ok (g', f) ->
  (((tick_count g + 1) mod 150 <> 0)%Z
   /\ dist_list g' = dist_list g ++ [Satellite.distance (sat g)]
   /\ eccentricity g' = eccentricity g)
  \/ (((tick_count g + 1) mod 150 = 0)%Z
      /\ dist_list g' = []
      /\ calc_eccentricity (dist_list g ++ [Satellite.distance (sat g)])
         = Ok (eccentricity g')).
Proof.
  intros Ht. destruct (tick_inv g inp g' f Ht) as (_ & ed & Hed & E).
  assert (Eg : g' = fst (tick_finish g inp ed)) by now rewrite <- E.
  destruct (recalc_cases (tick_count g + 1) (eccentricity g)
              (dist_list g ++ [Satellite.distance (sat g)]))
    as [[Hoff Hr] | [Hon Hr]]; rewrite Hr in Hed.
  - left. injection Hed as <-. rewrite Eg. auto.
  - right. destruct (calc_eccentricity _) as [e |]; [| discriminate].
    cbn [bind] in Hed. injection Hed as <-. rewrite Eg. auto.
Qed.

Lemma main_loop_counts (inputs : list Input) (g g' : Game)
      (fs : list Frame) :
  main_loop inputs g = Ok (g', fs) ->
  tick_count g' = (tick_count g + Z.of_nat (length fs))%Z
  /\ (length fs <= length inputs)%nat.
Proof.
  revert g g' fs.
  induction inputs as [| inp rest IH]; intros g g' fs Hrun;
    cbn [main_loop] in Hrun.
  - injection Hrun as <- <-. cbn. split; lia.
  - destruct (running g).
    + destruct (tick g inp) as [[g1 f1] |] eqn:Ht; [| discriminate].
      cbn [bind fst snd] in Hrun.
      destruct (main_loop rest g1) as [[g2 fs2] |] eqn:Hrest;
        [| discriminate].
      cbn [bind fst snd] in Hrun. injection Hrun as <- <-.
      destruct (IH g1 g2 fs2 Hrest) as [Hc Hl].
      rewrite Hc, (tick_counts g inp g1 f1 Ht). cbn [length]. split; lia.
    + injection Hrun as <- <-. cbn. split; lia.
Qed.

Lemma window_in_step_tick (g : Game) (inp : Input) (g' : Game) (f : Frame) :
  window_in_step g -> tick g inp = Ok (g', f) -> window_in_step g'.
Proof.
  intros [Hnn Hlen] Ht. unfold window_in_step.
  rewrite (tick_counts g inp g' f Ht).
  split; [lia|].
  destruct (tick_window g inp g' f Ht) as [(Hoff & -> & _) | (Hon & -> & _)].
  - rewrite length_app. cbn [length].
    rewrite Nat2Z.inj_add, Hlen. cbn.
    pose proof (Z.mod_pos_bound (tick_count g) 150 ltac:(lia)).
    pose proof (Z.mod_pos_bound (tick_count g + 1) 150 ltac:(lia)).
    rewrite (Z.add_mod (tick_count g) 1 150) in * by lia.
    change (1 mod 150)%Z with 1%Z in *.
    destruct (Z.eq_dec (tick_count g mod 150) 149) as [E | E].
    + rewrite E in Hoff. cbn in Hoff. contradiction.
    + rewrite (Z.mod_small (tick_count g mod 150 + 1) 150) by lia. lia.
  - cbn. now rewrite Hon.
Qed.

(** X8.  The sample window stays in step with the pass counter.  Every pass
    adds 1 to [tick_count]; a pass whose new count is no multiple of 150
    adds one sample to the window and keeps the estimate, a pass whose new
    count is a multiple of 150 computes the estimate from the window and
    empties it.  So from [main]'s initial state the window always holds
    [tick_count mod 150] samples (every recalculation sees exactly 150),
    and [tick_count] is the number of frames drawn. *)
Theorem window_follows_tick_count :
  (forall (g : Game) (inp : Input) (g' : Game) (f : Frame),
     window_in_step g -> tick g inp = Ok (g', f) ->
     window_in_step g'
     /\ tick_count g' = (tick_count g + 1)%Z
     /\ (((tick_count g') mod 150 <> 0)%Z ->
         dist_list g' = dist_list g ++ [Satellite.distance (sat g)]
         /\ eccentricity g' = eccentricity g)
     /\ (((tick_count g') mod 150 = 0)%Z ->
         dist_list g' = []
         /\ length (dist_list g ++ [Satellite.distance (sat g)]) = 150%nat
         /\ calc_eccentricity (dist_list g ++ [Satellite.distance (sat g)])
            = Ok (eccentricity g')))
  /\ (forall (x0 y0 dx0 : Z) (inputs : list Input) (g' : Game)
             (fs : list Frame),
        main_loop inputs (main_init x0 y0 dx0) = Ok (g', fs) ->
        window_in_step g'
        /\ tick_count g' = Z.of_nat (length fs)
        /\ (length fs <= length inputs)%nat).
Proof.
  split.
  - intros g inp g' f Hw Ht.
    pose proof (tick_counts g inp g' f Ht) as Hc.
    split; [now apply (window_in_step_tick g inp g' f)|].
    split; [exact Hc|]. rewrite Hc.
    destruct (tick_window g inp g' f Ht)
      as [(Hoff & Hl & He) | (Hon & Hl & He)].
    + split; [auto | contradiction].
    + split; [contradiction|]. intros _.
      split; [exact Hl|]. split; [| exact He].
      destruct Hw as [Hnn Hlen]. rewrite length_app. cbn [length].
      pose proof (Z.mod_pos_bound (tick_count g) 150 ltac:(lia)).
      rewrite (Z.add_mod (tick_count g) 1 150) in Hon by lia.
      change (1 mod 150)%Z with 1%Z in Hon.
      destruct (Z.eq_dec (tick_count g mod 150) 149) as [E | E].
      * lia.
      * rewrite (Z.mod_small (tick_count g mod 150 + 1) 150) in Hon by lia.
        lia.
  - intros x0 y0 dx0 inputs g' fs Hrun.
    destruct (main_loop_counts inputs _ g' fs Hrun) as [Hc Hl].
    split; [| split; [exact Hc | exact Hl]].
    assert (Hstep : forall (g : Game) (inp : Input) (g1 : Game) (f1 : Frame),
               window_in_step g -> tick g inp = Ok (g1, f1) ->
               window_in_step g1 /\ True).
    { intros g inp g1 f1 Hw Ht. split; [| exact I].
      now apply (window_in_step_tick g inp g1 f1). }
    assert (Hinit : window_in_step (main_init x0 y0 dx0)).
    { unfold window_in_step. cbn. split; [lia | reflexivity]. }
    exact (proj1 (main_loop_preserves _ _ Hstep inputs _ g' fs Hinit Hrun)).
Qed.

Lemma first_pass_returns (x0 y0 dx0 : Z) (inp : Input) :
  Satellite.valid_draw x0 y0 dx0 ->
  exists (g' : Game) (f : Frame),
    tick (main_init x0 y0 dx0) inp = Ok (g', f)
    /\ main_loop [inp] (main_init x0 y0 dx0) = Ok (g', [f]).
Proof.
  intros Hdraw.
  destruct (tick_returns (main_init x0 y0 dx0) inp) as (g' & f & Ht).
  - pose proof (init_separation x0 y0 dx0 Hdraw) as H.
    cbn [main_init planet sat]. lra.
  - left. cbn. lia.
  - exists g', f. split; [exact Ht|].
    apply main_loop_single; [reflexivity | exact Ht].
Qed.

Lemma draw_400_100_3 : Satellite.valid_draw 400 100 3.
Proof. unfold Satellite.valid_draw. lia. Qed.

Lemma window_follows_tick_count_witness :
  exists (g' : Game) (fs : list Frame),
    main_loop [idle] (main_init 400%Z 100%Z 3%Z) = Ok (g', fs)
    /\ window_in_step g' /\ tick_count g' = Z.of_nat (length fs).
Proof.
  destruct (first_pass_returns 400 100 3 idle draw_400_100_3)
    as (g' & f & _ & Hrun).
  exists g', [f]. split; [exact Hrun|].
  destruct (proj2 window_follows_tick_count 400%Z 100%Z 3%Z [idle] g' [f]
                  Hrun) as (Hw & Hc & _).
  split; assumption.
Defined.

(** ** The event loop *)

Lemma handle_events_running (m : bool) (evs : list Event)
      (st : bool * Planet.t) :
  fst (fold_left (handle_event m) evs st)
  = fst st && negb (existsb is_quit evs).
Proof.
  revert st. induction evs as [| e evs IH]; intros [r p]; cbn [fold_left].
  - cbn. now rewrite andb_true_r.
  - rewrite IH. destruct e as [| [] | k |]; destruct m; cbn;
      try reflexivity; now rewrite ?andb_false_r.
Qed.

Lemma tick_running (g : Game) (inp : Input) (g' : Game) (f : Frame) :
  tick g inp = Ok (g', f) ->
  running g' = running g && negb (existsb is_quit (events inp)).
Proof.
  intros Ht. destruct (tick_inv g inp g' f Ht) as (_ & ed & _ & E).
  assert (Eg : g' = fst (tick_finish g inp ed)) by now rewrite <- E.
  rewrite Eg. unfold tick_finish. cbn [fst running].
  unfold poll_events. now rewrite handle_events_running.
Qed.

(** X9.  A pass leaves [running] true exactly when it was true and the
    pass's events hold no [QUIT]; nothing sets it back to true.  The pass
    that reads a [QUIT] is still carried out in full and draws its frame,
    and it is the last: whatever inputs follow, the loop makes no further
    pass.  With [running] false the loop makes no pass at all. *)
Theorem quit_ends_the_loop :
  (forall (g : Game) (inp : Input) (g' : Game) (f : Frame),
     tick g inp = Ok (g', f) ->
     running g' = running g && negb (existsb is_quit (events inp)))
  /\ (forall (g : Game) (inp : Input) (rest : list Input) (g' : Game)
             (f : Frame),
        running g = true ->
        existsb is_quit (events inp) = true ->
        tick g inp = Ok (g', f) ->
        main_loop (inp :: rest) g = Ok (g', [f]))
  /\ (forall (g : Game) (inputs : list Input),
        running g = false -> main_loop inputs g = Ok (g, [])).
Proof.
  split; [exact tick_running|]. split.
  - intros g inp rest g' f Hrun Hquit Ht. cbn [main_loop].
    rewrite Hrun, Ht. cbn [bind fst snd].
    assert (Hstop : running g' = false).
    { rewrite (tick_running g inp g' f Ht), Hrun, Hquit. reflexivity. }
    destruct rest as [| inp' rest']; cbn [main_loop].
    + reflexivity.
    + rewrite Hstop. reflexivity.
  - intros g inputs Hrun. destruct inputs; cbn [main_loop].
    + reflexivity.
    + now rewrite Hrun.
Qed.

Lemma quit_ends_the_loop_witness :
  exists (g' : Game) (f : Frame),
    main_loop [mkInput [KEYDOWN K_m; QUIT; OTHER] no_keys 0; idle; idle]
              cruising = Ok (g', [f])
    /\ running g' = false.
Proof.
  set (inp := mkInput [KEYDOWN K_m; QUIT; OTHER] no_keys 0).
  pose proof (tick_pair _ _ _ (cruising_tick inp)) as Ht.
  destruct quit_ends_the_loop as (Hflag & Hlast & _).
  eexists. eexists. split.
  - apply (Hlast cruising inp [idle; idle] _ _ eq_refl eq_refl Ht).
  - rewrite (Hflag cruising inp _ _ Ht). reflexivity.
Defined.

Lemma handle_events_image_gated (evs : list Event) (st : bool * Planet.t) :
  Planet.image_copy (snd (fold_left (handle_event false) evs st))
  = if existsb is_keyup evs then image_mars
    else Planet.image_copy (snd st).
Proof.
  revert st. induction evs as [| e evs IH]; intros [r p]; cbn [fold_left].
  - reflexivity.
  - rewrite IH. destruct e as [| [] | k |]; cbn;
      destruct (existsb is_keyup evs); reflexivity.
Qed.

(** X10.  The moisture image is gated by the flag of the pass before.  With
    [mapping_enabled] false, pressing m shows nothing: after the events the
    planet's image is the one before, or the Mars image if any key at all
    was released.  With [mapping_enabled] true, a batch of events that ends
    in a key-down of m leaves the moisture image.  Whatever the flag, a
    batch that ends in the release of any key leaves the Mars image. *)
Theorem mapping_image_is_gated (g : Game) (inp : Input) :
  (mapping_enabled g = false ->
   Planet.image_copy (snd (poll_events g inp))
   = if existsb is_keyup (events inp) then image_mars
     else Planet.image_copy (planet g))
  /\ (forall evs : list Event,
        mapping_enabled g = true ->
        events inp = evs ++ [KEYDOWN K_m] ->
        Planet.image_copy (snd (poll_events g inp)) = image_water)
  /\ (forall (evs : list Event) (k : Key),
        events inp = evs ++ [KEYUP k] ->
        Planet.image_copy (snd (poll_events g inp)) = image_mars).
Proof.
  unfold poll_events. split; [| split].
  - intros ->. apply handle_events_image_gated.
  - intros evs -> ->. rewrite fold_left_app. cbn [fold_left].
    destruct (fold_left _ evs _) as [r p]. reflexivity.
  - intros evs k ->. rewrite fold_left_app. cbn [fold_left].
    destruct (fold_left _ evs _) as [r p].
    destruct (mapping_enabled g); reflexivity.
Qed.

Lemma mapping_image_is_gated_witness :
  Planet.image_copy
    (snd (poll_events cruising (mkInput [KEYDOWN K_m] no_keys 0)))
  = image_mars
  /\ Planet.image_copy
       (snd (poll_events cruising
               (mkInput [KEYDOWN K_m; KEYUP K_arrow] no_keys 0)))
     = image_mars.
Proof.
  split.
  - rewrite (proj1 (mapping_image_is_gated cruising
                      (mkInput [KEYDOWN K_m] no_keys 0)) eq_refl).
    reflexivity.
  - apply (proj2 (proj2 (mapping_image_is_gated cruising
             (mkInput [KEYDOWN K_m; KEYUP K_arrow] no_keys 0)))
             [KEYDOWN K_m] K_arrow).
    reflexivity.
Defined.

(** ** The planet over the loop *)

Lemma handle_events_spin (m : bool) (evs : list Event)
      (st : bool * Planet.t) :
  Planet.angle (snd (fold_left (handle_event m) evs st))
  = Planet.angle (snd st)
  /\ Planet.rotate_by (snd (fold_left (handle_event m) evs st))
     = Planet.rotate_by (snd st).
Proof.
  revert st. induction evs as [| e evs IH]; intros [r p]; cbn [fold_left].
  - auto.
  - destruct (IH (handle_event m (r, p) e)) as [-> ->].
    destruct e as [| [] | k |]; destruct m; cbn; auto.
Qed.

Lemma tick_planet (g : Game) (inp : Input) (g' : Game) (f : Frame) :
  tick g inp = Ok (g', f) ->
  Planet.x (planet g') = Planet.x (planet g)
  /\ Planet.y (planet g') = Planet.y (planet g)
  /\ Planet.mass (planet g') = Planet.mass (planet g)
  /\ Planet.rotate_by (planet g') = Planet.rotate_by (planet g)
  /\ Planet.angle (planet g')
     = Planet.angle (planet g) + Planet.rotate_by (planet g).
Proof.
  intros Ht. destruct (tick_inv g inp g' f Ht) as (_ & ed & _ & E).
  assert (Eg : g' = fst (tick_finish g inp ed)) by now rewrite <- E.
  rewrite Eg. unfold tick_finish. cbn [fst planet].
  unfold Planet.update, Planet.rotate.
  cbn [Planet.x Planet.y Planet.mass Planet.rotate_by Planet.angle].
  destruct (poll_events_planet g inp) as (-> & -> & ->).
  unfold poll_events.
  destruct (handle_events_spin (mapping_enabled g) (events inp)
              (running g, planet g)) as [-> ->].
  cbn [snd]. auto.
Qed.

(** X11.  Over any run of the loop the planet keeps its position, its mass
    and its rotation rate, and its angle has grown by one [rotate_by] for
    every frame drawn; the angle is never reduced modulo 360. *)
Theorem planet_only_spins (inputs : list Input) (g g' : Game)
        (fs : list Frame) :
  main_loop inputs g = Ok (g', fs) ->
  Planet.x (planet g') = Planet.x (planet g)
  /\ Planet.y (planet g') = Planet.y (planet g)
  /\ Planet.mass (planet g') = Planet.mass (planet g)
  /\ Planet.rotate_by (planet g') = Planet.rotate_by (planet g)
  /\ Planet.angle (planet g')
     = Planet.angle (planet g) + INR (length fs) * Planet.rotate_by (planet g).
Proof.
  revert g g' fs.
  induction inputs as [| inp rest IH]; intros g g' fs Hrun;
    cbn [main_loop] in Hrun.
  - injection Hrun as <- <-. cbn. repeat split. ring.
  - destruct (running g).
    + destruct (tick g inp) as [[g1 f1] |] eqn:Ht; [| discriminate].
      cbn [bind fst snd] in Hrun.
      destruct (main_loop rest g1) as [[g2 fs2] |] eqn:Hrest;
        [| discriminate].
      cbn [bind fst snd] in Hrun. injection Hrun as <- <-.
      destruct (IH g1 g2 fs2 Hrest) as (Hx & Hy & Hm & Hr & Ha).
      destruct (tick_planet g inp g1 f1 Ht) as (Hx1 & Hy1 & Hm1 & Hr1 & Ha1).
      rewrite Hx, Hy, Hm, Hr, Ha, Hx1, Hy1, Hm1, Hr1, Ha1.
      repeat split. change (length (f1 :: fs2)) with (S (length fs2)).
      rewrite S_INR. ring.
    + injection Hrun as <- <-. cbn. repeat split. ring.
Qed.

Lemma planet_only_spins_witness :
  exists (g' : Game) (fs : list Frame),
    main_loop [idle] (main_init 400%Z 100%Z 3%Z) = Ok (g', fs)
    /\ Planet.x (planet g') = 400 /\ Planet.y (planet g') = 320
    /\ Planet.mass (planet g') = 2000%Z.
Proof.
  destruct (first_pass_returns 400 100 3 idle draw_400_100_3)
    as (g' & f & _ & Hrun).
  exists g', [f]. split; [exact Hrun|].
  destruct (planet_only_spins _ _ _ _ Hrun) as (Hx & Hy & Hm & _).
  rewrite Hx, Hy, Hm. repeat split.
Defined.

(** ** The satellite and the frame after a pass *)

(** The satellite as the fail conditions of this pass find it. *)
Lemma tick_sat (g : Game) (inp : Input) (g' : Game) (f : Frame) :
  tick g inp = Ok (g', f) ->
  let s2 := pulled (snd (poll_events g inp)) (located g inp) in
  sat g' = Satellite.update (keys inp) (fst (fail_conditions s2))
  /\ messages f
     = snd (fail_conditions s2)
       ++ (if mapping_enabled g' then [Map_instruct] else [])
       ++ (if (get_ticks inp <=? 15000)%Z then [Intro_text] else [])
  /\ mapping_enabled g'
     = mapping_test (eccentricity g') (fst (fail_conditions s2))
  /\ readout_dx f = Satellite.dx (sat g')
  /\ readout_dy f = Satellite.dy (sat g')
  /\ readout_distance f = Satellite.distance (sat g')
  /\ readout_fuel f = Satellite.fuel (sat g')
  /\ readout_eccentricity f = eccentricity g'.
Proof.
  intros Ht s2. destruct (tick_inv g inp g' f Ht) as (_ & ed & _ & E).
  assert (Eg : g' = fst (tick_finish g inp ed)) by now rewrite <- E.
  assert (Ef : f = snd (tick_finish g inp ed)) by now rewrite <- E.
  rewrite Eg, Ef. unfold tick_finish. cbn [fst snd sat messages
    mapping_enabled eccentricity readout_dx readout_dy readout_distance
    readout_fuel readout_eccentricity]. fold s2.
  repeat split.
Qed.

Lemma fail_conditions_cases (s : Satellite.t) :
  ((Satellite.fuel s <= 0)%Z
   /\ fail_conditions s = (fuel_depleted s, [Fuel_depleted]))
  \/ ((0 < Satellite.fuel s)%Z /\ Satellite.distance s <= 68
      /\ fail_conditions s = (atmospheric_entry s, [Atmospheric_entry]))
  \/ ((0 < Satellite.fuel s)%Z /\ 68 < Satellite.distance s
      /\ fail_conditions s = (s, [])).
Proof.
  unfold fail_conditions.
  destruct (Satellite.fuel s <=? 0)%Z eqn:Ef.
  - left. apply Z.leb_le in Ef. auto.
  - apply Z.leb_gt in Ef. right.
    destruct (Rleb (Satellite.distance s) 68) eqn:Ed.
    + left. apply Rleb_true in Ed. auto.
    + right. apply Rleb_false in Ed. auto.
Qed.

Lemma pulled_located (g : Game) (inp : Input) :
  let s2 := pulled (snd (poll_events g inp)) (located g inp) in
  Satellite.fuel s2 = Satellite.fuel (sat g)
  /\ Satellite.distance s2 = separation (planet g) (sat g)
  /\ Satellite.x s2 = Satellite.x (sat g)
  /\ Satellite.y s2 = Satellite.y (sat g)
  /\ Satellite.mass s2 = Satellite.mass (sat g).
Proof.
  intros s2. unfold s2.
  rewrite pulled_fuel, pulled_distance, located_fuel, distance_located.
  repeat split.
Qed.

Lemma update_position (k : Keys) (s : Satellite.t) :
  Satellite.x (Satellite.update k s)
  = Satellite.x s + Satellite.dx (Satellite.update k s)
  /\ Satellite.y (Satellite.update k s)
     = Satellite.y s + Satellite.dy (Satellite.update k s)
  /\ Satellite.mass (Satellite.update k s) = Satellite.mass s
  /\ Satellite.heading (Satellite.update k s) = Satellite.heading s.
Proof.
  unfold Satellite.update, Satellite.check_keys.
  destruct (_ && _);
    destruct (K_RIGHT k), (K_LEFT k), (K_UP k), (K_DOWN k);
    repeat split.
Qed.

Lemma fail_conditions_frame (s : Satellite.t) :
  Satellite.x (fst (fail_conditions s)) = Satellite.x s
  /\ Satellite.y (fst (fail_conditions s)) = Satellite.y s
  /\ Satellite.mass (fst (fail_conditions s)) = Satellite.mass s
  /\ Satellite.heading (fst (fail_conditions s)) = Satellite.heading s
  /\ Satellite.fuel (fst (fail_conditions s))
     = (if Satellite.fuel s <=? 0 then 0 else Satellite.fuel s)%Z.
Proof.
  unfold fail_conditions.
  destruct (Satellite.fuel s <=? 0)%Z; [repeat split|].
  destruct (Rleb _ _); repeat split.
Qed.

Lemma tick_fuel (g : Game) (inp : Input) (g' : Game) (f : Frame) :
  tick g inp = Ok (g', f) ->
  Satellite.fuel (sat g')
  = ((if Satellite.fuel (sat g) <=? 0 then 0 else Satellite.fuel (sat g))
     - (if any_arrow (keys inp) then 2 else 0))%Z
  /\ readout_fuel f = Satellite.fuel (sat g')
  /\ Satellite.mass (sat g') = Satellite.mass (sat g).
Proof.
  intros Ht.
  destruct (tick_sat g inp g' f Ht) as (Hs & _ & _ & _ & _ & _ & Hr & _).
  destruct (pulled_located g inp) as (Hf & _ & _ & _ & Hm).
  split; [| split; [exact Hr|]].
  - rewrite Hs, update_fuel, check_keys_fuel.
    rewrite (proj2 (proj2 (proj2 (proj2 (fail_conditions_frame _))))), Hf.
    destruct (any_arrow (keys inp)); lia.
  - rewrite Hs.
    rewrite (proj1 (proj2 (proj2 (update_position _ _)))).
    rewrite (proj1 (proj2 (proj2 (fail_conditions_frame _)))). exact Hm.
Qed.

(** X12.  The fuel gauge over a pass: a gauge at or below 0 is first put to
    0, then 2 is taken if an arrow key is held, and the frame shows the
    result; the satellite's mass does not change.  So in a run from
    [main]'s initial state the gauge, and the fuel shown in every frame,
    stays between -2 and 100. *)
Theorem fuel_gauge_stays_in_range :
  (forall (g : Game) (inp : Input) (g' : Game) (f : Frame),
     tick g inp = Ok (g', f) ->
     Satellite.fuel (sat g')
     = ((if Satellite.fuel (sat g) <=? 0 then 0 else Satellite.fuel (sat g))
        - (if any_arrow (keys inp) then 2 else 0))%Z
     /\ readout_fuel f = Satellite.fuel (sat g')
     /\ Satellite.mass (sat g') = Satellite.mass (sat g))
  /\ (forall (x0 y0 dx0 : Z) (inputs : list Input) (g' : Game)
             (fs : list Frame),
        main_loop inputs (main_init x0 y0 dx0) = Ok (g', fs) ->
        (-2 <= Satellite.fuel (sat g') <= 100)%Z
        /\ Forall (fun f : Frame => (-2 <= readout_fuel f <= 100)%Z) fs).
Proof.
  split; [exact tick_fuel|].
  intros x0 y0 dx0 inputs g' fs Hrun.
  apply (main_loop_preserves
           (fun g : Game => (-2 <= Satellite.fuel (sat g) <= 100)%Z)
           (fun f : Frame => (-2 <= readout_fuel f <= 100)%Z))
    with (inputs := inputs) (g := main_init x0 y0 dx0); [| | exact Hrun].
  - intros g inp g1 f1 Hb Ht.
    destruct (tick_fuel g inp g1 f1 Ht) as (Hf & Hr & _).
    rewrite Hr, Hf.
    destruct (Satellite.fuel (sat g) <=? 0)%Z eqn:E;
      [apply Z.leb_le in E | apply Z.leb_gt in E];
      destruct (any_arrow (keys inp)); lia.
  - cbn. lia.
Qed.

Lemma fuel_gauge_stays_in_range_witness :
  exists (g' : Game) (f : Frame),
    tick (main_init 400%Z 100%Z 3%Z) hold_right = Ok (g', f)
    /\ readout_fuel f = 98%Z.
Proof.
  destruct (first_pass_returns 400 100 3 hold_right draw_400_100_3)
    as (g' & f & Ht & _).
  exists g', f. split; [exact Ht|].
  destruct (proj1 fuel_gauge_stays_in_range _ _ _ _ Ht) as (Hf & Hr & _).
  rewrite Hr, Hf. reflexivity.
Defined.

Lemma in_optional (m : Message) (b : bool) (a : Message) :
  In m (if b then [a] else []) <-> b = true /\ m = a.
Proof.
  destruct b; cbn; split.
  - intros [<- | []]. auto.
  - intros [_ ->]. now left.
  - intros [].
  - intros [H _]. discriminate.
Qed.

(** X13.  What a frame says.  "Fuel depleted" is drawn exactly when the pass
    started with fuel at or below 0; "Atmospheric entry" exactly when it
    started with fuel above 0 and located the satellite at 68 or less; the
    mapping hint exactly when the pass ends with [mapping_enabled]; the
    intro text exactly while [get_ticks] is at most 15000.  The two fail
    messages never appear together, and "Atmospheric entry" never appears
    together with the mapping hint. *)
Theorem frame_messages (g : Game) (inp : Input) (g' : Game) (f : Frame) :
  tick g inp = Ok (g', f) ->
  (In Fuel_depleted (messages f) <-> (Satellite.fuel (sat g) <= 0)%Z)
  /\ (In Atmospheric_entry (messages f)
      <-> (0 < Satellite.fuel (sat g))%Z
          /\ separation (planet g) (sat g) <= 68)
  /\ (In Map_instruct (messages f) <-> mapping_enabled g' = true)
  /\ (In Intro_text (messages f) <-> (get_ticks inp <= 15000)%Z)
  /\ ~ (In Fuel_depleted (messages f) /\ In Atmospheric_entry (messages f))
  /\ ~ (In Atmospheric_entry (messages f) /\ In Map_instruct (messages f)).
Proof.
  intros Ht.
  destruct (tick_sat g inp g' f Ht) as (_ & Hm & Hmap & _).
  destruct (pulled_located g inp) as (Hf & Hd & _).
  set (s2 := pulled (snd (poll_events g inp)) (located g inp)) in *.
  assert (Hin : forall m : Message,
             In m (messages f)
             <-> In m (snd (fail_conditions s2))
                 \/ (mapping_enabled g' = true /\ m = Map_instruct)
                 \/ ((get_ticks inp <=? 15000)%Z = true /\ m = Intro_text)).
  { intros m. rewrite Hm, !in_app_iff, !in_optional. tauto. }
  assert (Hfuel : In Fuel_depleted (messages f)
                  <-> (Satellite.fuel (sat g) <= 0)%Z).
  { rewrite Hin. rewrite <- Hf.
    destruct (fail_conditions_cases s2)
      as [(H1 & ->) | [(H1 & H2 & ->) | (H1 & H2 & ->)]]; cbn [snd In];
      split; intros; try lia; intuition (try discriminate; try lia). }
  assert (Hatm : In Atmospheric_entry (messages f)
                 <-> (0 < Satellite.fuel (sat g))%Z
                     /\ separation (planet g) (sat g) <= 68).
  { rewrite Hin. rewrite <- Hf, <- Hd.
    destruct (fail_conditions_cases s2)
      as [(H1 & ->) | [(H1 & H2 & ->) | (H1 & H2 & ->)]]; cbn [snd In];
      split; intros; intuition (try discriminate; try lia; try lra). }
  assert (Hmp : In Map_instruct (messages f) <-> mapping_enabled g' = true).
  { rewrite Hin.
    destruct (fail_conditions_cases s2)
      as [(H1 & ->) | [(H1 & H2 & ->) | (H1 & H2 & ->)]]; cbn [snd In];
      intuition discriminate. }
  split; [exact Hfuel|]. split; [exact Hatm|]. split; [exact Hmp|].
  split.
  - rewrite Hin, <- Z.leb_le.
    destruct (fail_conditions_cases s2)
      as [(H1 & ->) | [(H1 & H2 & ->) | (H1 & H2 & ->)]]; cbn [snd In];
      intuition discriminate.
  - split.
    + rewrite Hfuel, Hatm. lia.
    + rewrite Hatm, Hmp, Hmap. intros [[_ Hlow] Hon].
      apply mapping_test_true in Hon.
      rewrite fail_conditions_distance, Hd in Hon. lra.
Qed.

Lemma frame_messages_witness :
  exists (g' : Game) (f : Frame),
    tick low_and_dry idle = Ok (g', f)
    /\ In Fuel_depleted (messages f)
    /\ In Intro_text (messages f).
Proof.
  pose proof (tick_pair _ _ _ (low_and_dry_tick idle)) as Ht.
  eexists. eexists. split; [exact Ht|].
  destruct (frame_messages _ _ _ _ Ht) as (Hfuel & _ & _ & Hintro & _).
  split.
  - apply Hfuel. cbn. lia.
  - apply Hintro. cbn. lia.
Defined.

Lemma located_heading (g : Game) (inp : Input) :
  Satellite.heading (located g inp)
  = Satellite.heading (Satellite.locate (planet g) (sat g)).
Proof.
  destruct (poll_events_planet g inp) as (Hx & Hy & _).
  unfold located, Satellite.locate. cbn [Satellite.heading].
  now rewrite Hx, Hy.
Qed.

(** X14.  A pass moves the satellite by the velocity it ends the pass with:
    gravity, the fail conditions and the thrusters all act on the velocity
    before [path] adds it to the position.  The heading and distance the
    satellite keeps are the ones located in this pass, from the position
    before the move, and the telemetry shows the values after the pass. *)
Theorem pass_moves_by_final_velocity
        (g : Game) (inp : Input) (g' : Game) (f : Frame) :
  tick g inp = Ok (g', f) ->
  Satellite.x (sat g') = Satellite.x (sat g) + Satellite.dx (sat g')
  /\ Satellite.y (sat g') = Satellite.y (sat g) + Satellite.dy (sat g')
  /\ Satellite.distance (sat g') = separation (planet g) (sat g)
  /\ Satellite.heading (sat g')
     = Satellite.heading (Satellite.locate (planet g) (sat g))
  /\ readout_dx f = Satellite.dx (sat g')
  /\ readout_dy f = Satellite.dy (sat g')
  /\ readout_distance f = Satellite.distance (sat g').
Proof.
  intros Ht.
  destruct (tick_sat g inp g' f Ht) as (Hs & _ & _ & Hrx & Hry & Hrd & _).
  destruct (pulled_located g inp) as (_ & Hd & Hx & Hy & _).
  set (s2 := pulled (snd (poll_events g inp)) (located g inp)) in *.
  destruct (update_position (keys inp) (fst (fail_conditions s2)))
    as (Ux & Uy & _ & Uh).
  destruct (fail_conditions_frame s2) as (Fx & Fy & _ & Fh & _).
  rewrite <- Hs in Ux, Uy, Uh.
  split; [now rewrite Ux, Fx, Hx|]. split; [now rewrite Uy, Fy, Hy|].
  split.
  { rewrite Hs, update_distance, fail_conditions_distance. exact Hd. }
  split.
  { rewrite Uh, Fh. unfold s2. apply located_heading. }
  auto.
Qed.

Lemma pass_moves_by_final_velocity_witness :
  exists (g' : Game) (f : Frame),
    tick cruising idle = Ok (g', f)
    /\ Satellite.x (sat g') = 400 + Satellite.dx (sat g')
    /\ Satellite.distance (sat g') = 100.
Proof.
  pose proof (tick_pair _ _ _ (cruising_tick idle)) as Ht.
  eexists. eexists. split; [exact Ht|].
  destruct (pass_moves_by_final_velocity _ _ _ _ Ht) as (Hx & _ & Hd & _).
  split; [exact Hx|]. rewrite Hd. apply cruising_separation.
Defined.

Lemma update_image (k : Keys) (s : Satellite.t) :
  (Satellite.dx (Satellite.update k s) = 0
   /\ Satellite.dy (Satellite.update k s) = 0
   /\ Satellite.image (Satellite.update k s) = image_crash)
  \/ (~ (Satellite.dx (Satellite.update k s) = 0
         /\ Satellite.dy (Satellite.update k s) = 0)
      /\ Satellite.image (Satellite.update k s)
         = image_rotated (Satellite.heading s)).
Proof.
  unfold Satellite.update.
  set (s3 := Satellite.path (Satellite.rotate (Satellite.check_keys k s))).
  assert (Hh : Satellite.image s3 = image_rotated (Satellite.heading s)).
  { unfold s3, Satellite.check_keys.
    destruct (K_RIGHT k), (K_LEFT k), (K_UP k), (K_DOWN k); reflexivity. }
  destruct (Reqb (Satellite.dx s3) 0) eqn:Ex;
    destruct (Reqb (Satellite.dy s3) 0) eqn:Ey; cbn [andb].
  - apply Reqb_true in Ex, Ey. left. cbn. auto.
  - apply Reqb_false in Ey. right. split; [tauto | exact Hh].
  - apply Reqb_false in Ex. right. split; [tauto | exact Hh].
  - apply Reqb_false in Ex. right. split; [tauto | exact Hh].
Qed.

(** X15.  After a pass the satellite shows the burning image exactly when
    both velocity components are exactly 0; otherwise it shows the normal
    image rotated by the heading located in this pass.  In particular a
    satellite in the atmosphere with an arrow key held is not drawn as
    crashed. *)
Theorem crash_image_iff_at_rest
        (g : Game) (inp : Input) (g' : Game) (f : Frame) :
  tick g inp = Ok (g', f) ->
  (Satellite.image (sat g') = image_crash
   <-> Satellite.dx (sat g') = 0 /\ Satellite.dy (sat g') = 0)
  /\ (Satellite.image (sat g') <> image_crash ->
      Satellite.image (sat g')
      = image_rotated
          (Satellite.heading (Satellite.locate (planet g) (sat g))))
  /\ ((0 < Satellite.fuel (sat g))%Z ->
      separation (planet g) (sat g) <= 68 ->
      (Satellite.image (sat g') = image_crash
       <-> any_arrow (keys inp) = false)).
Proof.
  intros Ht.
  destruct (tick_sat g inp g' f Ht) as (Hs & _).
  destruct (pulled_located g inp) as (Hf & Hd & _).
  set (s2 := pulled (snd (poll_events g inp)) (located g inp)) in *.
  assert (Hh : Satellite.heading (fst (fail_conditions s2))
               = Satellite.heading (Satellite.locate (planet g) (sat g))).
  { rewrite (proj1 (proj2 (proj2 (proj2 (fail_conditions_frame s2))))).
    apply located_heading. }
  assert (Hiff : Satellite.image (sat g') = image_crash
                 <-> Satellite.dx (sat g') = 0 /\ Satellite.dy (sat g') = 0).
  { rewrite Hs.
    destruct (update_image (keys inp) (fst (fail_conditions s2)))
      as [(Hx & Hy & Hi) | (Hn & Hi)]; rewrite Hi.
    - tauto.
    - split; [discriminate | tauto]. }
  split; [exact Hiff|]. split.
  - intros Hnc. rewrite Hs in *.
    destruct (update_image (keys inp) (fst (fail_conditions s2)))
      as [(_ & _ & Hi) | (_ & Hi)]; [contradiction|].
    now rewrite Hi, Hh.
  - intros Hfuel Hlow. rewrite Hiff, Hs.
    destruct (update_velocity (keys inp) (fst (fail_conditions s2)))
      as [-> ->].
    destruct (check_keys_velocity (keys inp) (fst (fail_conditions s2)))
      as [-> ->].
    destruct (fail_conditions_cases s2)
      as [(H1 & _) | [(_ & _ & ->) | (_ & H2 & _)]]; [lia | | lra].
    cbn [fst atmospheric_entry Satellite.dx Satellite.dy].
    unfold key_thrust, any_arrow.
    destruct (K_RIGHT (keys inp)), (K_LEFT (keys inp)), (K_UP (keys inp)),
      (K_DOWN (keys inp)); cbn; split; intros; try discriminate;
      try reflexivity; try lra; try (split; lra).
Qed.

Lemma crash_image_iff_at_rest_witness :
  exists (g' : Game) (f : Frame),
    tick cruising idle = Ok (g', f)
    /\ (Satellite.image (sat g') = image_crash
        <-> Satellite.dx (sat g') = 0 /\ Satellite.dy (sat g') = 0).
Proof.
  pose proof (tick_pair _ _ _ (cruising_tick idle)) as Ht.
  eexists. eexists. split; [exact Ht|].
  exact (proj1 (crash_image_iff_at_rest _ _ _ _ Ht)).
Defined.

(** ** The two fail states over the loop *)

Lemma key_thrust_none (k : Keys) :
  any_arrow k = false -> key_thrust k = (0, 0).
Proof.
  unfold any_arrow, key_thrust.
  destruct (K_RIGHT k), (K_LEFT k), (K_UP k), (K_DOWN k);
    intros; try discriminate; reflexivity.
Qed.

Lemma tick_velocity (g : Game) (inp : Input) (g' : Game) (f : Frame) :
  tick g inp = Ok (g', f) ->
  let s3 := fst (fail_conditions
                   (pulled (snd (poll_events g inp)) (located g inp))) in
  Satellite.dx (sat g') = Satellite.dx s3 + fst (key_thrust (keys inp))
  /\ Satellite.dy (sat g') = Satellite.dy s3 + snd (key_thrust (keys inp)).
Proof.
  intros Ht s3. destruct (tick_sat g inp g' f Ht) as (Hs & _).
  rewrite Hs. fold s3.
  destruct (update_velocity (keys inp) s3) as [-> ->].
  apply check_keys_velocity.
Qed.

Lemma separation_after_tick (g : Game) (inp : Input) (g' : Game)
      (f : Frame) :
  tick g inp = Ok (g', f) ->
  Satellite.x (sat g') = Satellite.x (sat g) ->
  Satellite.y (sat g') = Satellite.y (sat g) ->
  separation (planet g') (sat g') = separation (planet g) (sat g).
Proof.
  intros Ht Hx Hy. destruct (tick_planet g inp g' f Ht) as (Px & Py & _).
  unfold separation. now rewrite Px, Py, Hx, Hy.
Qed.

Lemma tick_distance (g : Game) (inp : Input) (g' : Game) (f : Frame) :
  tick g inp = Ok (g', f) ->
  Satellite.distance (sat g') = separation (planet g) (sat g).
Proof.
  intros Ht. destruct (tick_inv g inp g' f Ht) as (_ & ed & _ & E).
  assert (Eg : g' = fst (tick_finish g inp ed)) by now rewrite <- E.
  rewrite Eg. apply tick_finish_distance.
Qed.

Lemma tick_position (g : Game) (inp : Input) (g' : Game) (f : Frame) :
  tick g inp = Ok (g', f) ->
  Satellite.x (sat g') = Satellite.x (sat g) + Satellite.dx (sat g')
  /\ Satellite.y (sat g') = Satellite.y (sat g) + Satellite.dy (sat g').
Proof.
  intros Ht. destruct (tick_sat g inp g' f Ht) as (Hs & _).
  destruct (pulled_located g inp) as (_ & _ & Hx & Hy & _).
  set (s2 := pulled (snd (poll_events g inp)) (located g inp)) in *.
  destruct (update_position (keys inp) (fst (fail_conditions s2)))
    as (Ux & Uy & _).
  destruct (fail_conditions_frame s2) as (Fx & Fy & _).
  rewrite <- Hs in Ux, Uy. now rewrite Ux, Uy, Fx, Fy, Hx, Hy.
Qed.

Lemma samples_sound_tick (g : Game) (inp : Input) (g' : Game) (f : Frame) :
  tick g inp = Ok (g', f) ->
  (forall x : R, In x (dist_list g) -> 0 <= x) ->
  0 <= Satellite.distance (sat g) ->
  samples_sound g'.
Proof.
  intros Ht Hl Hd.
  destruct (tick_inv g inp g' f Ht) as (Hsep & _).
  split.
  - destruct (tick_window g inp g' f Ht) as [(_ & -> & _) | (_ & -> & _)].
    + intros x Hx. apply in_app_or in Hx.
      destruct Hx as [Hx | [<- | []]]; auto.
    + intros x [].
  - rewrite (tick_distance g inp g' f Ht).
    pose proof (hypot_nonneg (Planet.x (planet g) - Satellite.x (sat g))
                  (Planet.y (planet g) - Satellite.y (sat g))).
    unfold separation in *. lra.
Qed.

Lemma grounded_tick (g : Game) (inp : Input) (g' : Game) (f : Frame) :
  grounded g -> hands_off inp -> tick g inp = Ok (g', f) ->
  Satellite.x (sat g') = Satellite.x (sat g)
  /\ Satellite.y (sat g') = Satellite.y (sat g)
  /\ Satellite.fuel (sat g') = Satellite.fuel (sat g)
  /\ grounded g'
  /\ In Atmospheric_entry (messages f)
  /\ readout_dx f = 0 /\ readout_dy f = 0.
Proof.
  intros [Hfuel [Hpos Hlow]] Hoff Ht. unfold hands_off in Hoff.
  destruct (tick_velocity g inp g' f Ht) as [Hvx Hvy].
  destruct (tick_position g inp g' f Ht) as [Hx Hy].
  destruct (tick_fuel g inp g' f Ht) as (Hf & _).
  destruct (tick_sat g inp g' f Ht) as (_ & Hm & _ & Hrx & Hry & _).
  destruct (pulled_located g inp) as (Hf2 & Hd2 & _).
  set (s2 := pulled (snd (poll_events g inp)) (located g inp)) in *.
  destruct (fail_conditions_cases s2)
    as [(H1 & _) | [(_ & _ & Hfc) | (_ & H2 & _)]]; [lia | | lra].
  rewrite Hfc in *. cbn [fst snd atmospheric_entry Satellite.dx
    Satellite.dy] in *.
  rewrite (key_thrust_none _ Hoff) in Hvx, Hvy. cbn [fst snd] in Hvx, Hvy.
  assert (Dx : Satellite.dx (sat g') = 0) by lra.
  assert (Dy : Satellite.dy (sat g') = 0) by lra.
  assert (Ex : Satellite.x (sat g') = Satellite.x (sat g)) by lra.
  assert (Ey : Satellite.y (sat g') = Satellite.y (sat g)) by lra.
  assert (Ef : Satellite.fuel (sat g') = Satellite.fuel (sat g)).
  { rewrite Hf, Hoff.
    replace (Satellite.fuel (sat g) <=? 0)%Z with false
      by (symmetry; apply Z.leb_gt; lia). lia. }
  split; [exact Ex|]. split; [exact Ey|]. split; [exact Ef|].
  split.
  { unfold grounded.
    rewrite Ef, (separation_after_tick g inp g' f Ht Ex Ey). auto. }
  split; [rewrite Hm; now left|].
  split; congruence.
Qed.

(** X16.  Atmospheric entry is final while the player keeps off the arrow
    keys.  Start anywhere inside the atmosphere (68 or less from the
    planet, not on its centre) with fuel left, with no negative sample in
    the window and a positive stored distance: then whatever the events,
    the loop raises nothing, every frame it draws says "Atmospheric entry"
    and shows a velocity of exactly 0, and at the end the satellite is
    where it started, with the fuel it started with. *)
Theorem atmospheric_entry_is_final (inputs : list Input) (g : Game) :
  Forall hands_off inputs ->
  grounded g -> samples_sound g ->
  exists (g' : Game) (fs : list Frame),
    main_loop inputs g = Ok (g', fs)
    /\ Satellite.x (sat g') = Satellite.x (sat g)
    /\ Satellite.y (sat g') = Satellite.y (sat g)
    /\ Satellite.fuel (sat g') = Satellite.fuel (sat g)
    /\ Forall (fun f : Frame =>
                 In Atmospheric_entry (messages f)
                 /\ readout_dx f = 0 /\ readout_dy f = 0) fs.
Proof.
  intros Hoff. revert g.
  induction Hoff as [| inp rest Hinp Hrest IH]; intros g Hg Hs.
  - exists g, []. cbn. repeat split. constructor.
  - cbn [main_loop]. destruct (running g).
    + destruct (tick_returns g inp) as (g1 & f1 & Ht).
      { destruct Hg as [_ [Hpos _]]. lra. }
      { right. exact Hs. }
      rewrite Ht. cbn [bind fst snd].
      destruct (grounded_tick g inp g1 f1 Hg Hinp Ht)
        as (Hx & Hy & Hf & Hg1 & Hm & Hrx & Hry).
      assert (Hs1 : samples_sound g1).
      { destruct Hs as [Hl Hd].
        apply (samples_sound_tick g inp g1 f1 Ht Hl). lra. }
      destruct (IH g1 Hg1 Hs1) as (g2 & fs2 & Hrun & Hx2 & Hy2 & Hf2 & Hall).
      rewrite Hrun. cbn [bind fst snd].
      exists g2, (f1 :: fs2). split; [reflexivity|].
      rewrite Hx2, Hy2, Hf2, Hx, Hy, Hf. repeat split.
      constructor; auto.
    + exists g, []. repeat split. constructor.
Qed.

Lemma sinking_grounded : grounded sinking /\ samples_sound sinking.
Proof.
  assert (E : separation (planet sinking) (sat sinking) = 50).
  { unfold separation. cbn.
    replace (400 - 400) with 0 by ring. replace (320 - 270) with 50 by ring.
    apply hypot_axis. lra. }
  split.
  - split; [cbn; lia | rewrite E; lra].
  - split; [intros x [] | cbn; lra].
Qed.

Lemma atmospheric_entry_is_final_witness :
  exists (g' : Game) (fs : list Frame),
    main_loop [idle; mkInput [KEYDOWN K_SPACE] no_keys 40; idle] sinking
    = Ok (g', fs)
    /\ Satellite.x (sat g') = 400 /\ Satellite.y (sat g') = 270.
Proof.
  destruct (atmospheric_entry_is_final
              [idle; mkInput [KEYDOWN K_SPACE] no_keys 40; idle] sinking)
    as (g' & fs & Hrun & Hx & Hy & _).
  - repeat constructor.
  - exact (proj1 sinking_grounded).
  - exact (proj2 sinking_grounded).
  - exists g', fs. split; [exact Hrun|]. split; assumption.
Defined.

Lemma depleted_tick (g : Game) (inp : Input) (g' : Game) (f : Frame) :
  (Satellite.fuel (sat g) <= 0)%Z -> tick g inp = Ok (g', f) ->
  Satellite.dx (sat g') = 2 + fst (key_thrust (keys inp))
  /\ Satellite.x (sat g')
     = Satellite.x (sat g) + 2 + fst (key_thrust (keys inp))
  /\ (Satellite.fuel (sat g') <= 0)%Z
  /\ In Fuel_depleted (messages f).
Proof.
  intros Hfuel Ht.
  destruct (tick_velocity g inp g' f Ht) as [Hvx _].
  destruct (tick_position g inp g' f Ht) as [Hx _].
  destruct (tick_fuel g inp g' f Ht) as (Hf & _).
  destruct (tick_sat g inp g' f Ht) as (_ & Hm & _).
  destruct (pulled_located g inp) as (Hf2 & _).
  set (s2 := pulled (snd (poll_events g inp)) (located g inp)) in *.
  rewrite (fail_conditions_fuel s2) in * by lia.
  cbn [fst snd fuel_depleted Satellite.dx] in *.
  split; [exact Hvx|]. split; [lra|]. split.
  - rewrite Hf.
    replace (Satellite.fuel (sat g) <=? 0)%Z with true
      by (symmetry; apply Z.leb_le; lia).
    destruct (any_arrow (keys inp)); lia.
  - rewrite Hm. now left.
Qed.

(** X17.  Running out of fuel is final too.  A pass that starts with the
    gauge at or below 0 ends with it at or below 0 and says "Fuel
    depleted"; it discards whatever horizontal velocity the satellite had
    and gravity gave it, and moves the satellite right by 2 plus the held
    key's thrust.  Over a run in which no arrow key is held, the satellite
    has moved right by exactly 2 for every frame drawn. *)
Theorem fuel_depletion_is_final :
  (forall (g : Game) (inp : Input) (g' : Game) (f : Frame),
     (Satellite.fuel (sat g) <= 0)%Z -> tick g inp = Ok (g', f) ->
     Satellite.dx (sat g') = 2 + fst (key_thrust (keys inp))
     /\ Satellite.x (sat g')
        = Satellite.x (sat g) + 2 + fst (key_thrust (keys inp))
     /\ (Satellite.fuel (sat g') <= 0)%Z
     /\ In Fuel_depleted (messages f))
  /\ (forall (inputs : list Input) (g g' : Game) (fs : list Frame),
        Forall hands_off inputs ->
        (Satellite.fuel (sat g) <= 0)%Z ->
        main_loop inputs g = Ok (g', fs) ->
        Satellite.x (sat g') = Satellite.x (sat g) + 2 * INR (length fs)
        /\ (Satellite.fuel (sat g') <= 0)%Z
        /\ Forall (fun f : Frame =>
                     In Fuel_depleted (messages f) /\ readout_dx f = 2) fs).
Proof.
  split; [exact depleted_tick|].
  intros inputs g g' fs Hoff. revert g g' fs.
  induction Hoff as [| inp rest Hinp Hrest IH]; intros g g' fs Hfuel Hrun;
    cbn [main_loop] in Hrun.
  - injection Hrun as <- <-. cbn. split; [ring | split; [lia | constructor]].
  - destruct (running g).
    + destruct (tick g inp) as [[g1 f1] |] eqn:Ht; [| discriminate].
      cbn [bind fst snd] in Hrun.
      destruct (main_loop rest g1) as [[g2 fs2] |] eqn:Hrest';
        [| discriminate].
      cbn [bind fst snd] in Hrun. injection Hrun as <- <-.
      destruct (depleted_tick g inp g1 f1 Hfuel Ht) as (Hdx & Hx & Hf1 & Hm).
      destruct (tick_sat g inp g1 f1 Ht) as (_ & _ & _ & Hrx & _).
      unfold hands_off in Hinp.
      rewrite (key_thrust_none _ Hinp) in Hdx, Hx. cbn [fst] in Hdx, Hx.
      destruct (IH g1 g2 fs2 Hf1 Hrest') as (Hx2 & Hf2 & Hall).
      split; [| split; [exact Hf2|]].
      * rewrite Hx2, Hx. change (length (f1 :: fs2)) with (S (length fs2)).
        rewrite S_INR. ring.
      * constructor; [| exact Hall]. split; [exact Hm|].
        rewrite Hrx, Hdx. ring.
    + injection Hrun as <- <-. cbn. split; [ring | split; [lia | constructor]].
Qed.

Lemma fuel_depletion_is_final_witness :
  exists (g' : Game) (f : Frame),
    tick adrift hold_right = Ok (g', f)
    /\ Satellite.x (sat g') = 400 + 2 + 5 / 100.
Proof.
  pose proof (tick_pair _ _ _ (adrift_tick hold_right)) as Ht.
  eexists. eexists. split; [exact Ht|].
  assert (Hfuel : (Satellite.fuel (sat adrift) <= 0)%Z) by (cbn; lia).
  destruct (proj1 fuel_depletion_is_final adrift hold_right _ _ Hfuel Ht)
    as (_ & Hx & _).
  exact Hx.
Defined.

(** ** Free flight *)

(** X18.  In a pass with fuel left that locates the satellite above the
    atmosphere, neither fail branch touches the velocity: the velocity
    after the pass is the velocity before plus gravity's pull plus the held
    key's thrust.  With no arrow held the change of velocity has size
    [|mass_satellite * mass_planet| / d^2], [d] being the distance located
    in the pass. *)
Theorem free_flight_velocity
        (g : Game) (inp : Input) (g' : Game) (f : Frame) :
  let d := separation (planet g) (sat g) in
  let pull := 1 * IZR (Satellite.mass (sat g) * Planet.mass (planet g))
              / d ^ 2 in
  (0 < Satellite.fuel (sat g))%Z -> 68 < d ->
  tick g inp = Ok (g', f) ->
  Satellite.dx (sat g')
  = Satellite.dx (sat g)
    + (Planet.x (planet g) - Satellite.x (sat g)) / d * pull
    + fst (key_thrust (keys inp))
  /\ Satellite.dy (sat g')
     = Satellite.dy (sat g)
       + (Planet.y (planet g) - Satellite.y (sat g)) / d * pull
       + snd (key_thrust (keys inp))
  /\ ~ In Fuel_depleted (messages f)
  /\ ~ In Atmospheric_entry (messages f)
  /\ (hands_off inp ->
      delta_v (sat g) (sat g')
      = Rabs (IZR (Satellite.mass (sat g) * Planet.mass (planet g))) / d ^ 2).
Proof.
  intros d pull Hfuel Hhigh Ht.
  destruct (tick_velocity g inp g' f Ht) as [Hvx Hvy].
  destruct (tick_sat g inp g' f Ht) as (_ & Hm & _).
  destruct (pulled_located g inp) as (Hf2 & Hd2 & _).
  destruct (poll_events_planet g inp) as (Px & Py & Pm).
  pose proof (separation_located g inp) as Hsep.
  set (p1 := snd (poll_events g inp)) in *.
  set (s2 := pulled p1 (located g inp)) in *.
  fold d in Hd2, Hsep.
  destruct (fail_conditions_cases s2)
    as [(H1 & _) | [(_ & H2 & _) | (_ & _ & Hfc)]]; [lia | lra |].
  rewrite Hfc in *. cbn [fst snd] in *.
  assert (Ex : Satellite.dx s2
               = Satellite.dx (sat g)
                 + (Planet.x (planet g) - Satellite.x (sat g)) / d * pull).
  { unfold s2, pulled. cbn [Satellite.dx]. rewrite Hsep, Px, Pm.
    reflexivity. }
  assert (Ey : Satellite.dy s2
               = Satellite.dy (sat g)
                 + (Planet.y (planet g) - Satellite.y (sat g)) / d * pull).
  { unfold s2, pulled. cbn [Satellite.dy]. rewrite Hsep, Py, Pm.
    reflexivity. }
  split; [now rewrite Hvx, Ex|]. split; [now rewrite Hvy, Ey|].
  assert (Hnone : forall m : Message,
             m = Fuel_depleted \/ m = Atmospheric_entry ->
             ~ In m (messages f)).
  { intros m Hcase Hin. rewrite Hm in Hin. cbn [app] in Hin.
    apply in_app_or in Hin.
    rewrite !in_optional in Hin.
    destruct Hcase as [-> | ->]; intuition discriminate. }
  split; [apply Hnone; now left|]. split; [apply Hnone; now right|].
  intros Hoff. unfold hands_off in Hoff.
  rewrite (key_thrust_none _ Hoff) in Hvx, Hvy. cbn [fst snd] in Hvx, Hvy.
  assert (Hd0 : separation p1 (located g inp) <> 0) by (rewrite Hsep; lra).
  pose proof (delta_v_pulled p1 (located g inp) Hd0) as Hdv.
  fold s2 in Hdv. rewrite Hsep, Pm in Hdv.
  change (Satellite.mass (located g inp)) with (Satellite.mass (sat g)) in Hdv.
  rewrite <- Hdv. unfold delta_v.
  change (Satellite.dx (located g inp)) with (Satellite.dx (sat g)).
  change (Satellite.dy (located g inp)) with (Satellite.dy (sat g)).
  f_equal; lra.
Qed.

Lemma free_flight_velocity_witness :
  exists (g' : Game) (f : Frame),
    tick cruising idle = Ok (g', f)
    /\ delta_v (sat cruising) (sat g') = Rabs (IZR (1 * 2000)) / 100 ^ 2.
Proof.
  pose proof (tick_pair _ _ _ (cruising_tick idle)) as Ht.
  eexists. eexists. split; [exact Ht|].
  assert (Hfuel : (0 < Satellite.fuel (sat cruising))%Z) by (cbn; lia).
  assert (Hhigh : 68 < separation (planet cruising) (sat cruising))
    by (rewrite cruising_separation; lra).
  destruct (free_flight_velocity cruising idle _ _ Hfuel Hhigh Ht)
    as (_ & _ & _ & _ & Hdv).
  rewrite Hdv by reflexivity. now rewrite cruising_separation.
Defined.

(** ** The first ten seconds *)

Lemma calc_eccentricity_zero_first (l : list R) (d : R) :
  (forall x : R, In x l -> 0 < x) -> 0 < d ->
  calc_eccentricity (0 :: l ++ [d]) = Ok 1.
Proof.
  intros Hl Hd.
  assert (Hall : forall x : R, In x (l ++ [d]) -> 0 < x).
  { intros x Hx. apply in_app_or in Hx.
    destruct Hx as [Hx | [<- | []]]; auto. }
  destruct (l ++ [d]) as [| a l'] eqn:E.
  - now destruct l.
  - now apply calc_eccentricity_zero_sample.
Qed.

Lemma early_tick (g : Game) (inp : Input) (g' : Game) (f : Frame) :
  early g -> tick g inp = Ok (g', f) ->
  early g'
  /\ ((tick_count g' < 300)%Z ->
      readout_eccentricity f = 1 /\ ~ In Map_instruct (messages f)).
Proof.
  intros (Hnn & Hecc & Hzero & Hmid) Ht.
  pose proof (tick_counts g inp g' f Ht) as Hc.
  destruct (tick_inv g inp g' f Ht) as (Hsep & _).
  pose proof (tick_distance g inp g' f Ht) as Hdist.
  destruct (tick_sat g inp g' f Ht) as (_ & Hm & Hmap & _ & _ & _ & _ & Hre).
  assert (Hsep_pos : 0 < separation (planet g) (sat g)).
  { pose proof (hypot_nonneg (Planet.x (planet g) - Satellite.x (sat g))
                  (Planet.y (planet g) - Satellite.y (sat g))).
    unfold separation in *. lra. }
  assert (He : (tick_count g' < 300)%Z ->
               eccentricity g' = 1 /\ mapping_enabled g' = false).
  { intros Hlt. destruct Hecc as [Hone _]; [lia|].
    assert (E1 : eccentricity g' = 1).
    { destruct (tick_window g inp g' f Ht)
        as [(_ & _ & He) | (Hon & _ & Hcalc)].
      - now rewrite He.
      - assert (Htc : tick_count g = 149%Z).
        { revert Hon. Z.div_mod_to_equations. lia. }
        destruct Hmid as (Hd & l & Hl & Hpos); [lia|].
        rewrite Hl in Hcalc. cbn [app] in Hcalc.
        rewrite (calc_eccentricity_zero_first l _ Hpos Hd) in Hcalc.
        congruence. }
    split; [exact E1|]. rewrite Hmap. apply not_true_is_false.
    rewrite mapping_test_true, E1. lra. }
  split.
  - split; [lia|]. split; [exact He|]. split; [lia|].
    intros Hrange. rewrite Hdist. split; [exact Hsep_pos|].
    destruct (tick_window g inp g' f Ht)
      as [(_ & Hl & _) | (Hon & _ & _)].
    + rewrite Hl.
      destruct (Z.eq_dec (tick_count g) 0) as [E0 | E0].
      * destruct (Hzero E0) as [-> ->]. exists []. split; [reflexivity|].
        intros x [].
      * destruct Hmid as (Hd & l & -> & Hpos); [lia|].
        exists (l ++ [Satellite.distance (sat g)]). split; [reflexivity|].
        intros x Hx. apply in_app_or in Hx.
        destruct Hx as [Hx | [<- | []]]; auto.
    + exfalso. rewrite Z.mod_small in Hon by lia. lia.
  - intros Hlt. destruct (He Hlt) as [E1 Eoff].
    split; [now rewrite Hre|].
    intros Hin. rewrite Hm, Eoff in Hin.
    apply in_app_or in Hin. destruct Hin as [Hin | Hin].
    + destruct (fail_conditions_cases
                  (pulled (snd (poll_events g inp)) (located g inp)))
        as [(_ & Hfc) | [(_ & _ & Hfc) | (_ & _ & Hfc)]];
        rewrite Hfc in Hin; cbn in Hin; intuition discriminate.
    + cbn [app] in Hin. apply in_optional in Hin.
      destruct Hin as [_ Hin]. discriminate.
Qed.

Lemma early_main_init (x0 y0 dx0 : Z) : early (main_init x0 y0 dx0).
Proof.
  unfold early. cbn. repeat split; try lia; try reflexivity.
Qed.

Lemma early_main_loop (inputs : list Input) (g g' : Game)
      (fs : list Frame) :
  early g ->
  (tick_count g + Z.of_nat (length inputs) < 300)%Z ->
  main_loop inputs g = Ok (g', fs) ->
  early g'
  /\ (tick_count g' < 300)%Z
  /\ Forall (fun f : Frame =>
               readout_eccentricity f = 1 /\ ~ In Map_instruct (messages f))
            fs.
Proof.
  revert g g' fs.
  induction inputs as [| inp rest IH]; intros g g' fs He Hlen Hrun;
    cbn [main_loop] in Hrun.
  - injection Hrun as <- <-. cbn in Hlen. split; [exact He|].
    split; [lia | constructor].
  - cbn [length] in Hlen. destruct (running g).
    + destruct (tick g inp) as [[g1 f1] |] eqn:Ht; [| discriminate].
      cbn [bind fst snd] in Hrun.
      destruct (main_loop rest g1) as [[g2 fs2] |] eqn:Hrest;
        [| discriminate].
      cbn [bind fst snd] in Hrun. injection Hrun as <- <-.
      pose proof (tick_counts g inp g1 f1 Ht) as Hc.
      destruct (early_tick g inp g1 f1 He Ht) as [He1 Hf1].
      destruct (IH g1 g2 fs2 He1 ltac:(lia) Hrest) as (He2 & Hlt & Hall).
      split; [exact He2|]. split; [exact Hlt|].
      constructor; [apply Hf1; lia | exact Hall].
    + injection Hrun as <- <-. split; [exact He|].
      split; [lia | constructor].
Qed.

(** X19.  Mapping cannot be enabled during the first 299 passes (about ten
    seconds at 30 frames a second), however good the orbit.  The estimate
    starts at 1; the first recalculation, at pass 150, works on a window
    whose first sample is the 0 that [Satellite.__init__] stored, so it
    returns 1 again; the next comes at pass 300.  In any run of fewer than
    300 passes from [main]'s initial state every frame shows an
    eccentricity of 1 and no mapping hint, and [mapping_enabled] is false
    at the end. *)
Theorem no_mapping_in_the_first_299_passes
        (x0 y0 dx0 : Z) (inputs : list Input) (g' : Game)
        (fs : list Frame) :
  (length inputs < 300)%nat ->
  main_loop inputs (main_init x0 y0 dx0) = Ok (g', fs) ->
  eccentricity g' = 1
  /\ mapping_enabled g' = false
  /\ Forall (fun f : Frame =>
               readout_eccentricity f = 1 /\ ~ In Map_instruct (messages f))
            fs.
Proof.
  intros Hlen Hrun.
  destruct (early_main_loop inputs (main_init x0 y0 dx0) g' fs
              (early_main_init x0 y0 dx0))
    as ((_ & Hecc & _) & Hlt & Hall).
  - cbn. lia.
  - exact Hrun.
  - destruct (Hecc Hlt) as [E1 E2]. auto.
Qed.

Lemma no_mapping_in_the_first_299_passes_witness :
  exists (g' : Game) (fs : list Frame),
    main_loop [idle] (main_init 400%Z 100%Z 3%Z) = Ok (g', fs)
    /\ eccentricity g' = 1 /\ mapping_enabled g' = false.
Proof.
  destruct (first_pass_returns 400 100 3 idle draw_400_100_3)
    as (g' & f & _ & Hrun).
  exists g', [f]. split; [exact Hrun|].
  assert (Hlen : (length [idle] < 300)%nat) by (cbn; lia).
  destruct (no_mapping_in_the_first_299_passes _ _ _ _ _ _ Hlen Hrun)
    as (E1 & E2 & _).
  split; assumption.
Defined.

(** ** Where a game starts *)

Lemma hypot_upper_bound (a b c : R) :
  0 <= c -> a * a + b * b < c * c -> hypot a b < c.
Proof.
  intros Hc Hlt.
  pose proof (hypot_nonneg a b) as Hn.
  pose proof (hypot_sqr a b) as Hs.
  set (h := hypot a b) in *. clearbody h.
  destruct (Rlt_le_dec h c) as [Hlt' | Hge]; [exact Hlt'|].
  exfalso.
  assert (c * c <= h * h) by (apply Rmult_le_compat; lra).
  lra.
Qed.

Lemma init_separation_upper (x0 y0 dx0 : Z) :
  Satellite.valid_draw x0 y0 dx0 ->
  separation Planet.init (Satellite.init x0 y0 dx0) < 265.
Proof.
  intros ([Hx1 Hx2] & [Hy1 Hy2] & _). unfold separation.
  cbn [Planet.x Planet.y Planet.init Satellite.x Satellite.y Satellite.init].
  assert (Hxa : 315 <= IZR x0) by (apply IZR_le; lia).
  assert (Hxb : IZR x0 <= 424) by (apply IZR_le; lia).
  assert (Hya : 70 <= IZR y0) by (apply IZR_le; lia).
  assert (Hyb : IZR y0 <= 179) by (apply IZR_le; lia).
  apply hypot_upper_bound; [lra|].
  set (a := 400 - IZR x0). set (b := 320 - IZR y0).
  assert (Ha : -24 <= a <= 85) by (unfold a; lra).
  assert (Hb : 141 <= b <= 250) by (unfold b; lra).
  clearbody a b.
  assert (a * a <= 85 * 85).
  { destruct (Rle_lt_dec 0 a).
    - apply Rmult_le_compat; lra.
    - replace (a * a) with (- a * - a) by ring.
      apply Rmult_le_compat; lra. }
  assert (b * b <= 250 * 250) by (apply Rmult_le_compat; lra).
  lra.
Qed.

(** X20.  Every game starts in free flight above the target band.  For
    each of the positions and velocities [Satellite.__init__] can draw,
    the first pass raises nothing and locates the satellite between 141 and
    265 from the planet; its frame shows neither fail message nor the
    mapping hint, an eccentricity of 1, and a fuel of 100, or 98 if an
    arrow key is held. *)
Theorem game_starts_in_free_flight
        (x0 y0 dx0 : Z) (inp : Input) :
  Satellite.valid_draw x0 y0 dx0 ->
  exists (g' : Game) (f : Frame),
    tick (main_init x0 y0 dx0) inp = Ok (g', f)
    /\ 141 <= readout_distance f < 265
    /\ readout_fuel f = (if any_arrow (keys inp) then 98 else 100)%Z
    /\ readout_eccentricity f = 1
    /\ ~ In Fuel_depleted (messages f)
    /\ ~ In Atmospheric_entry (messages f)
    /\ ~ In Map_instruct (messages f).
Proof.
  intros Hdraw.
  destruct (first_pass_returns x0 y0 dx0 inp Hdraw) as (g' & f & Ht & _).
  exists g', f. split; [exact Ht|].
  pose proof (init_separation x0 y0 dx0 Hdraw) as Hlo.
  pose proof (init_separation_upper x0 y0 dx0 Hdraw) as Hhi.
  destruct (tick_sat _ _ _ _ Ht) as (_ & Hm & _ & _ & _ & Hrd & Hrf & _).
  destruct (tick_fuel _ _ _ _ Ht) as (Hf & _).
  pose proof (tick_distance _ _ _ _ Ht) as Hd.
  destruct (early_tick _ _ _ _ (early_main_init x0 y0 dx0) Ht)
    as [_ Hearly].
  destruct Hearly as [He Hmap].
  { rewrite (tick_counts _ _ _ _ Ht). cbn. lia. }
  destruct (pulled_located (main_init x0 y0 dx0) inp) as (Hf2 & Hd2 & _).
  set (s2 := pulled (snd (poll_events (main_init x0 y0 dx0) inp))
                    (located (main_init x0 y0 dx0) inp)) in *.
  cbn [main_init planet sat] in Hd, Hd2, Hf, Hf2.
  split; [rewrite Hrd, Hd; lra|].
  split.
  { rewrite Hrf, Hf. cbn. destruct (any_arrow (keys inp)); reflexivity. }
  split; [exact He|].
  assert (Hfc : fail_conditions s2 = (s2, [])).
  { destruct (fail_conditions_cases s2)
      as [(H1 & _) | [(_ & H2 & _) | (_ & _ & Hfc)]].
    - rewrite Hf2 in H1. cbn in H1. lia.
    - rewrite Hd2 in H2. lra.
    - exact Hfc. }
  rewrite Hfc in Hm. cbn [snd app] in Hm.
  assert (Hnone : forall m : Message,
             m = Fuel_depleted \/ m = Atmospheric_entry ->
             ~ In m (messages f)).
  { intros m Hcase Hin. rewrite Hm in Hin. apply in_app_or in Hin.
    rewrite !in_optional in Hin.
    destruct Hcase as [-> | ->]; intuition discriminate. }
  split; [apply Hnone; now left|]. split; [apply Hnone; now right|].
  exact Hmap.
Qed.

Lemma game_starts_in_free_flight_witness :
  exists (g' : Game) (f : Frame),
    tick (main_init 400%Z 100%Z 3%Z) hold_right = Ok (g', f)
    /\ readout_fuel f = 98%Z
    /\ ~ In Atmospheric_entry (messages f).
Proof.
  destruct (game_starts_in_free_flight 400 100 3 hold_right draw_400_100_3)
    as (g' & f & Ht & _ & Hf & _ & _ & Ha & _).
  exists g', f. split; [exact Ht|]. split; assumption.
Defined.
